(** * Analysis utilities of the tensor IR (tvm.tir.analysis)

    The Python module [tvm/tir/analysis/analysis.py] is a thin layer over a
    native engine reached through [_ffi_api].  This development embeds the
    Python entry points as they are written, with the native engine either
    taken as a parameter (where the Python code alone decides a property) or
    modelled from the specification of the engine (where the property is
    about what the engine computes). *)

From stdpp Require Import gmap strings list fin_maps.
From Stdlib Require Import ZArith Lia.
From Stdlib Require Import Floats.PrimFloat Floats.SpecFloat Floats.FloatOps.

Set Warnings "-register-all".

(** ** The IR tree model *)

(** Modelled from the spec: the variables of the IR tree model (section 3),
    which the Python sources only import.  A variable is an object: two
    variables are the same exactly when they are the same object, whatever
    their name hints say.  [var_id] stands for the object identity (the
    arena index of the node store). *)
Record Var := mkVar { var_id : positive; name_hint : string }.

Definition same_as (a b : Var) : bool := Pos.eqb (var_id a) (var_id b).

Inductive DataType := Int32 | Int64 | Float16 | Float32 | Bool8 | Handle.

Definition dtype_bytes (t : DataType) : Z :=
  match t with
  | Int32 => 4 | Int64 => 8 | Float16 => 2 | Float32 => 4 | Bool8 => 1 | Handle => 8
  end.

(** Modelled from the spec: the buffers of the IR tree model (section 3).
    A buffer is a named memory object with a shape, an element type and a
    memory scope, reached for raw accesses through its handle variable
    [data].  Buffers are objects too and are compared by identity. *)
Record Buffer := mkBuffer {
  buffer_id : positive;
  data : Var;
  buffer_name : string;
  shape : list Z;
  dtype : DataType;
  storage_scope : string
}.

Definition buffer_same_as (a b : Buffer) : bool :=
  Pos.eqb (buffer_id a) (buffer_id b).

Inductive BinOp :=
| OpAdd | OpSub | OpMul | OpDiv | OpMod | OpMin | OpMax
| OpEQ | OpNE | OpLT | OpLE | OpGT | OpGE
| OpAnd | OpOr.

Definition binop_eqb (a b : BinOp) : bool :=
  match a, b with
  | OpAdd, OpAdd | OpSub, OpSub | OpMul, OpMul | OpDiv, OpDiv | OpMod, OpMod
  | OpMin, OpMin | OpMax, OpMax | OpEQ, OpEQ | OpNE, OpNE | OpLT, OpLT
  | OpLE, OpLE | OpGT, OpGT | OpGE, OpGE | OpAnd, OpAnd | OpOr, OpOr => true
  | _, _ => false
  end.

(** Modelled from the spec: the expression nodes of the IR tree model
    (section 3): variable reference, constant, arithmetic, comparison and
    logical operators, selection, let binding, memory load and call (a call
    is how a buffer handle is passed around opaquely). *)
Inductive PrimExpr :=
| VarE (v : Var)
| IntImm (value : Z)
| BinE (op : BinOp) (a b : PrimExpr)
| NotE (a : PrimExpr)
| SelectE (cond tv fv : PrimExpr)
| LetE (v : Var) (value body : PrimExpr)
| BufferLoad (buf : Buffer) (indices : list PrimExpr)
| CallE (op : string) (args : list PrimExpr).

(** A block iteration variable with its declared domain. *)
Record IterVar := mkIterVar {
  iter_var : Var;
  dom_min : PrimExpr;
  dom_extent : PrimExpr
}.

Inductive ForKind :=
| Serial | Parallel | Vectorized | Unrolled
| ThreadBinding (thread_tag : string).

(** Modelled from the spec: the statement nodes of the IR tree model
    (section 3): sequence, conditional, loop, allocation, buffer store, let
    binding, expression evaluation and compute block.  A block carries its
    name, its iteration variables, an optional init statement (which marks a
    reduction) and a body. *)
Inductive Stmt :=
| SeqStmt (seq : list Stmt)
| IfThenElse (cond : PrimExpr) (then_case : Stmt) (else_case : option Stmt)
| For (loop_var : Var) (min extent : PrimExpr) (kind : ForKind) (body : Stmt)
| Allocate (buf : Buffer) (body : Stmt)
| BufferStore (buf : Buffer) (value : PrimExpr) (indices : list PrimExpr)
| LetStmt (v : Var) (value : PrimExpr) (body : Stmt)
| Evaluate (e : PrimExpr)
| Block (name : string) (iter_vars : list IterVar) (init : option Stmt)
        (body : Stmt).

(** Modelled from the spec: a function (section 3) has parameters, the map
    from handle variables (by identity) to buffers, and a body. *)
Record PrimFunc := mkPrimFunc {
  params : list Var;
  buffer_map : gmap positive Buffer;
  func_body : Stmt
}.

(** Modelled from the spec: a module (section 3) maps global names to
    functions and other globals. *)
Inductive GlobalDef :=
| TirFunc (f : PrimFunc)
| OtherGlobal (description : string).

Record IRModule := mkIRModule { functions : gmap string GlobalDef }.

(** *** Induction principles that reach into the nested lists *)

Section PrimExpr_nested_ind.
Variable P : PrimExpr → Prop.
Hypothesis HVar : ∀ v, P (VarE v).
Hypothesis HImm : ∀ n, P (IntImm n).
Hypothesis HBin : ∀ op a b, P a → P b → P (BinE op a b).
Hypothesis HNot : ∀ a, P a → P (NotE a).
Hypothesis HSel : ∀ c t f, P c → P t → P f → P (SelectE c t f).
Hypothesis HLet : ∀ v x b, P x → P b → P (LetE v x b).
Hypothesis HLoad : ∀ buf idx, Forall P idx → P (BufferLoad buf idx).
Hypothesis HCall : ∀ op args, Forall P args → P (CallE op args).

Fixpoint PrimExpr_nested_ind (e : PrimExpr) : P e :=
  let all := fix all (l : list PrimExpr) : Forall P l :=
    match l with
    | [] => List.Forall_nil P
    | x :: r => List.Forall_cons P x r (PrimExpr_nested_ind x) (all r)
    end in
  match e with
  | VarE v => HVar v
  | IntImm n => HImm n
  | BinE op a b => HBin op a b (PrimExpr_nested_ind a) (PrimExpr_nested_ind b)
  | NotE a => HNot a (PrimExpr_nested_ind a)
  | SelectE c t f =>
      HSel c t f (PrimExpr_nested_ind c) (PrimExpr_nested_ind t)
           (PrimExpr_nested_ind f)
  | LetE v x b => HLet v x b (PrimExpr_nested_ind x) (PrimExpr_nested_ind b)
  | BufferLoad buf idx => HLoad buf idx (all idx)
  | CallE op args => HCall op args (all args)
  end.
End PrimExpr_nested_ind.

Definition option_Forall {A} (P : A → Prop) (o : option A) : Prop :=
  match o with Some x => P x | None => True end.

Section Stmt_nested_ind.
Variable P : Stmt → Prop.
Hypothesis HSeq : ∀ ss, Forall P ss → P (SeqStmt ss).
Hypothesis HIf : ∀ c t e, P t → option_Forall P e → P (IfThenElse c t e).
Hypothesis HFor : ∀ v lo ext k b, P b → P (For v lo ext k b).
Hypothesis HAlloc : ∀ buf b, P b → P (Allocate buf b).
Hypothesis HStore : ∀ buf x idx, P (BufferStore buf x idx).
Hypothesis HLetS : ∀ v x b, P b → P (LetStmt v x b).
Hypothesis HEval : ∀ e, P (Evaluate e).
Hypothesis HBlock : ∀ n ivs i b, option_Forall P i → P b → P (Block n ivs i b).

Fixpoint Stmt_nested_ind (s : Stmt) : P s :=
  let all := fix all (l : list Stmt) : Forall P l :=
    match l with
    | [] => List.Forall_nil P
    | x :: r => List.Forall_cons P x r (Stmt_nested_ind x) (all r)
    end in
  let opt := fun (o : option Stmt) =>
    match o return option_Forall P o with
    | Some x => Stmt_nested_ind x
    | None => I
    end in
  match s with
  | SeqStmt ss => HSeq ss (all ss)
  | IfThenElse c t e => HIf c t e (Stmt_nested_ind t) (opt e)
  | For v lo ext k b => HFor v lo ext k b (Stmt_nested_ind b)
  | Allocate buf b => HAlloc buf b (Stmt_nested_ind b)
  | BufferStore buf x idx => HStore buf x idx
  | LetStmt v x b => HLetS v x b (Stmt_nested_ind b)
  | Evaluate e => HEval e
  | Block n ivs i b => HBlock n ivs i b (opt i) (Stmt_nested_ind b)
  end.
End Stmt_nested_ind.

(** ** The traversal framework

    A scoped walk over the tree, shared by the scope-aware passes.  The walk
    is depth first and left to right; it reports every binding site, every
    variable use and every buffer load and store, each together with the
    ancestor chain of the enclosing loops and blocks (root first).  A tree
    node is identified by its position: the list of child indices leading to
    it from the root of the walk. *)

Definition path := list nat.

Inductive ScopeNode :=
| LoopScope (pos : path) (v : Var) (lo ext : PrimExpr) (kind : ForKind)
| BlockScope (pos : path) (name : string) (iter_vars : list IterVar).

Definition scope_pos (n : ScopeNode) : path :=
  match n with
  | LoopScope p _ _ _ _ => p
  | BlockScope p _ _ => p
  end.

Inductive Action :=
| Bind (v : Var)
| Use (v : Var)
| Load (buf : Buffer) (indices : list PrimExpr)
| Store (buf : Buffer) (indices : list PrimExpr).

Record Visit := mkVisit { ancestors : list ScopeNode; action : Action }.

Fixpoint flat_mapi {A B} (f : nat → A → list B) (i : nat) (l : list A)
  : list B :=
  match l with
  | [] => []
  | x :: r => f i x ++ flat_mapi f (S i) r
  end.

(** Modelled from the spec: the scoped walk of the traversal framework
    (section 4.1) over an expression.  A let binds its variable after its
    value and before its body; a load is met before its indices. *)
Fixpoint walk_expr (chain : list ScopeNode) (e : PrimExpr) : list Visit :=
  match e with
  | VarE v => [mkVisit chain (Use v)]
  | IntImm _ => []
  | BinE _ a b => walk_expr chain a ++ walk_expr chain b
  | NotE a => walk_expr chain a
  | SelectE c t f => walk_expr chain c ++ walk_expr chain t ++ walk_expr chain f
  | LetE v x b =>
      walk_expr chain x ++ mkVisit chain (Bind v) :: walk_expr chain b
  | BufferLoad buf idx =>
      mkVisit chain (Load buf idx) :: flat_map (walk_expr chain) idx
  | CallE _ args => flat_map (walk_expr chain) args
  end.

Definition walk_iter_var (chain : list ScopeNode) (iv : IterVar) : list Visit :=
  walk_expr chain (dom_min iv) ++ walk_expr chain (dom_extent iv)
  ++ [mkVisit chain (Bind (iter_var iv))].

(** Modelled from the spec: the scoped walk of the traversal framework
    (section 4.1) over a statement at position [here].  A loop binds its
    variable after its bounds and encloses its body; a block binds its
    iteration variables and encloses its init statement and its body; a
    store is met before its value and its indices. *)
Fixpoint walk_stmt (here : path) (chain : list ScopeNode) (s : Stmt)
  : list Visit :=
  match s with
  | SeqStmt ss =>
      flat_mapi (λ i x, walk_stmt (here ++ [i]) chain x) 0 ss
  | IfThenElse c t e =>
      walk_expr chain c ++ walk_stmt (here ++ [0]) chain t
      ++ match e with
         | Some e' => walk_stmt (here ++ [1]) chain e'
         | None => []
         end
  | For v lo ext k b =>
      walk_expr chain lo ++ walk_expr chain ext
      ++ mkVisit chain (Bind v)
         :: walk_stmt (here ++ [0]) (chain ++ [LoopScope here v lo ext k]) b
  | Allocate _ b => walk_stmt (here ++ [0]) chain b
  | BufferStore buf x idx =>
      mkVisit chain (Store buf idx)
      :: walk_expr chain x ++ flat_map (walk_expr chain) idx
  | LetStmt v x b =>
      walk_expr chain x ++ mkVisit chain (Bind v)
      :: walk_stmt (here ++ [0]) chain b
  | Evaluate e => walk_expr chain e
  | Block n ivs i b =>
      flat_map (walk_iter_var chain) ivs
      ++ match i with
         | Some i' => walk_stmt (here ++ [0]) (chain ++ [BlockScope here n ivs]) i'
         | None => []
         end
      ++ walk_stmt (here ++ [1]) (chain ++ [BlockScope here n ivs]) b
  end.

(** The statement found at a position. *)
Fixpoint stmt_at (p : path) (s : Stmt) : option Stmt :=
  match p with
  | [] => Some s
  | i :: q =>
      match s with
      | SeqStmt ss => match ss !! i with Some x => stmt_at q x | None => None end
      | IfThenElse _ t e =>
          match i with
          | O => stmt_at q t
          | S O => match e with Some e' => stmt_at q e' | None => None end
          | _ => None
          end
      | For _ _ _ _ b | Allocate _ b | LetStmt _ _ b =>
          match i with O => stmt_at q b | _ => None end
      | Block _ _ init b =>
          match i with
          | O => match init with Some i' => stmt_at q i' | None => None end
          | S O => stmt_at q b
          | _ => None
          end
      | BufferStore _ _ _ | Evaluate _ => None
      end
  end.

(** What the entry points accept where Python says [Union[Stmt, PrimExpr]]. *)
Inductive Node :=
| StmtNode (s : Stmt)
| ExprNode (e : PrimExpr).

Definition walk_node (n : Node) : list Visit :=
  match n with
  | StmtNode s => walk_stmt [] [] s
  | ExprNode e => walk_expr [] e
  end.

(** The double nearest to an integer. *)
Definition Z_to_float (z : Z) : float :=
  SF2Prim (binary_normalize prec emax z 0 false).

(** ** The native engine behind [_ffi_api]

    The engine is not part of the Python sources.  Its passes are modelled
    here from the specification of the analysis core; the three points the
    specification leaves to the implementation are parameters of the model. *)

Module ffi_api.

Section Engine.

(** What the FLOP estimator takes as the iteration count of a loop whose
    extent is not a compile-time constant. *)
Variable symbolic_trip_count : PrimExpr → Z.

(** The scope-local resource counters of the GPU verifier beyond thread
    count and scratch memory. *)
Variable other_counters : Stmt → list (string * Z).

(** Which of two candidate anchor blocks of equal estimate wins. *)
Variable prefer_later_on_tie : bool.

(** *** Structural equality *)

(** Modelled from the spec: the native [expr_deep_equal] (section 4.2).
    Two nodes are equal iff their kinds match and all fields recursively
    match; variables and buffers are compared by identity, never by name
    and never up to renaming. *)
Fixpoint expr_deep_equal (lhs rhs : PrimExpr) : bool :=
  match lhs, rhs with
  | VarE x, VarE y => same_as x y
  | IntImm m, IntImm n => Z.eqb m n
  | BinE o a b, BinE o' a' b' =>
      binop_eqb o o' && expr_deep_equal a a' && expr_deep_equal b b'
  | NotE a, NotE a' => expr_deep_equal a a'
  | SelectE c t f, SelectE c' t' f' =>
      expr_deep_equal c c' && expr_deep_equal t t' && expr_deep_equal f f'
  | LetE v x b, LetE v' x' b' =>
      same_as v v' && expr_deep_equal x x' && expr_deep_equal b b'
  | BufferLoad buf idx, BufferLoad buf' idx' =>
      buffer_same_as buf buf'
      && (fix all2 (l l' : list PrimExpr) : bool :=
            match l, l' with
            | [], [] => true
            | x :: r, x' :: r' => expr_deep_equal x x' && all2 r r'
            | _, _ => false
            end) idx idx'
  | CallE op args, CallE op' args' =>
      String.eqb op op'
      && (fix all2 (l l' : list PrimExpr) : bool :=
            match l, l' with
            | [], [] => true
            | x :: r, x' :: r' => expr_deep_equal x x' && all2 r r'
            | _, _ => false
            end) args args'
  | _, _ => false
  end.

(** *** SSA verifier *)

(** The binding sites met by a walk, in walk order: loop variables, block
    iteration variables and let bindings. *)
Definition binding_sites (vs : list Visit) : list Var :=
  omap (λ v, match action v with Bind x => Some x | _ => None end) vs.

Definition ssa_visit (st : gset positive * bool) (v : Visit)
  : gset positive * bool :=
  match action v with
  | Bind x =>
      if decide (var_id x ∈ st.1) then (st.1, false)
      else ({[var_id x]} ∪ st.1, st.2)
  | _ => st
  end.

(** Modelled from the spec: the native [verify_ssa] (section 4.3).  It
    collects every binding site across the function body and fails as soon
    as an identity is bound a second time, wherever the two sites are. *)
Definition verify_ssa (func : PrimFunc) : bool :=
  (foldl ssa_visit (∅, true) (walk_stmt [] [] (func_body func))).2.

(** *** Undefined-variable detector *)

Record UseDefState := mkUseDef {
  defined : gset positive;
  undefined : list Var
}.

Definition use_def_visit (st : UseDefState) (v : Visit) : UseDefState :=
  match action v with
  | Bind x => mkUseDef ({[var_id x]} ∪ defined st) (undefined st)
  | Use x =>
      if decide (var_id x ∈ defined st) then st
      else if decide (var_id x ∈ var_id <$> undefined st) then st
      else mkUseDef (defined st) (undefined st ++ [x])
  | _ => st
  end.

(** Modelled from the spec: the native [UndefinedVars] (section 4.9).  A
    scope-aware walk seeded with the caller's defined variables; a variable
    use is added to the result unless the variable is in the currently
    defined set, which accumulates the variables bound during the walk. *)
Definition UndefinedVars (node : Node) (defs : list Var) : list Var :=
  undefined
    (foldl use_def_visit (mkUseDef (list_to_set (var_id <$> defs)) [])
       (walk_node node)).

(** *** FLOP estimator *)

Definition sumZ (l : list Z) : Z := foldr Z.add 0%Z l.

(** The operator nodes of an expression: arithmetic, comparison and logical
    operators. *)
Fixpoint flops_expr (e : PrimExpr) : Z :=
  match e with
  | VarE _ | IntImm _ => 0
  | BinE _ a b => 1 + flops_expr a + flops_expr b
  | NotE a => 1 + flops_expr a
  | SelectE c t f => flops_expr c + flops_expr t + flops_expr f
  | LetE _ x b => flops_expr x + flops_expr b
  | BufferLoad _ idx => sumZ (map flops_expr idx)
  | CallE _ args => sumZ (map flops_expr args)
  end%Z.

Definition trip_count (extent : PrimExpr) : Z :=
  match extent with
  | IntImm n => n
  | _ => symbolic_trip_count extent
  end.

Fixpoint flops_stmt (s : Stmt) : Z :=
  match s with
  | SeqStmt ss => sumZ (map flops_stmt ss)
  | IfThenElse c t e =>
      flops_expr c + flops_stmt t
      + match e with Some e' => flops_stmt e' | None => 0 end
  | For _ _ ext _ b => trip_count ext * flops_stmt b
  | Allocate _ b => flops_stmt b
  | BufferStore _ x idx => flops_expr x + sumZ (map flops_expr idx)
  | LetStmt _ x b => flops_expr x + flops_stmt b
  | Evaluate e => flops_expr e
  | Block _ _ i b =>
      match i with Some i' => flops_stmt i' | None => 0 end + flops_stmt b
  end%Z.

Definition module_funcs (m : IRModule) : list PrimFunc :=
  omap (λ kv, match kv.2 with TirFunc f => Some f | OtherGlobal _ => None end)
       (map_to_list (functions m)).

Definition flop_count (stmt_or_mod : Stmt + IRModule) : Z :=
  match stmt_or_mod with
  | inl s => flops_stmt s
  | inr m => sumZ (map (λ f, flops_stmt (func_body f)) (module_funcs m))
  end.

(** Modelled from the spec: the native [EstimateTIRFlops] (section 4.8), a
    bottom-up cost fold.  Every operator node costs one unit, a loop
    multiplies the cost of its body by its iteration count, and costs add up
    across sibling statements and across the functions of a module.  The
    count is a whole number; it is handed back as a float. *)
Definition EstimateTIRFlops (stmt_or_mod : Stmt + IRModule) : float :=
  Z_to_float (flop_count stmt_or_mod).

(** *** Anchor block finder *)

(** The blocks carrying an init statement, depth first. *)
Fixpoint init_blocks (s : Stmt) : list Stmt :=
  match s with
  | SeqStmt ss => flat_map init_blocks ss
  | IfThenElse _ t e =>
      init_blocks t ++ match e with Some e' => init_blocks e' | None => [] end
  | For _ _ _ _ b | Allocate _ b | LetStmt _ _ b => init_blocks b
  | BufferStore _ _ _ | Evaluate _ => []
  | Block _ _ i b =>
      match i with Some i' => s :: init_blocks i' | None => [] end
      ++ init_blocks b
  end.

Definition module_init_blocks (m : IRModule) : list Stmt :=
  flat_map (λ f, init_blocks (func_body f)) (module_funcs m).

Definition beats (cand best : Stmt) : bool :=
  if prefer_later_on_tie
  then (flops_stmt best <=? flops_stmt cand)%Z
  else (flops_stmt best <? flops_stmt cand)%Z.

Definition pick_anchor (best : option Stmt) (cand : Stmt) : option Stmt :=
  match best with
  | None => Some cand
  | Some b => if beats cand b then Some cand else Some b
  end.

(** Modelled from the spec: the native [find_anchor_block] (section 4.11).
    Among the blocks of the module that carry an init statement it keeps the
    one whose FLOP estimate is largest; with no such block the answer is
    [None].  The Python docstring makes a module with several primary
    compute patterns a matter of the caller's contract, and the rule that
    would detect one is left open, so no module is turned away here. *)
Definition find_anchor_block (m : IRModule) : option Stmt :=
  foldl pick_anchor None (module_init_blocks m).

(** *** GPU resource verifier *)

(** A kernel launch scope is an outermost loop bound to a thread axis. *)
Fixpoint kernel_scopes (s : Stmt) : list Stmt :=
  match s with
  | SeqStmt ss => flat_map kernel_scopes ss
  | IfThenElse _ t e =>
      kernel_scopes t
      ++ match e with Some e' => kernel_scopes e' | None => [] end
  | For _ _ _ k b =>
      match k with
      | ThreadBinding _ => [s]
      | _ => kernel_scopes b
      end
  | Allocate _ b | LetStmt _ _ b => kernel_scopes b
  | BufferStore _ _ _ | Evaluate _ => []
  | Block _ _ i b =>
      match i with Some i' => kernel_scopes i' | None => [] end
      ++ kernel_scopes b
  end.

(** The thread axes bound inside a statement, with their extents. *)
Fixpoint thread_bindings (s : Stmt) : list (string * PrimExpr) :=
  match s with
  | SeqStmt ss => flat_map thread_bindings ss
  | IfThenElse _ t e =>
      thread_bindings t
      ++ match e with Some e' => thread_bindings e' | None => [] end
  | For _ _ ext k b =>
      match k with
      | ThreadBinding tag => (tag, ext) :: thread_bindings b
      | _ => thread_bindings b
      end
  | Allocate _ b | LetStmt _ _ b => thread_bindings b
  | BufferStore _ _ _ | Evaluate _ => []
  | Block _ _ i b =>
      match i with Some i' => thread_bindings i' | None => [] end
      ++ thread_bindings b
  end.

(** The buffers allocated inside a statement. *)
Fixpoint allocations (s : Stmt) : list Buffer :=
  match s with
  | SeqStmt ss => flat_map allocations ss
  | IfThenElse _ t e =>
      allocations t ++ match e with Some e' => allocations e' | None => [] end
  | For _ _ _ _ b | LetStmt _ _ b => allocations b
  | Allocate buf b => buf :: allocations b
  | BufferStore _ _ _ | Evaluate _ => []
  | Block _ _ i b =>
      match i with Some i' => allocations i' | None => [] end ++ allocations b
  end.

Definition const_value (e : PrimExpr) : option Z :=
  match e with IntImm n => Some n | _ => None end.

(** Threads per block: the product of the constant extents of the
    [threadIdx] axes, each axis counted once. *)
Fixpoint block_threads (seen : list string) (bs : list (string * PrimExpr))
  : Z :=
  match bs with
  | [] => 1
  | (tag, ext) :: r =>
      if String.prefix "threadIdx." tag && negb (bool_decide (tag ∈ seen))
      then default 1 (const_value ext) * block_threads (tag :: seen) r
      else block_threads seen r
  end%Z.

Definition buffer_bytes (b : Buffer) : Z :=
  (dtype_bytes (dtype b) * foldr Z.mul 1 (shape b))%Z.

Definition scope_bytes (scope : string) (bufs : list Buffer) : Z :=
  sumZ (map buffer_bytes
            (filter (λ b, String.prefix scope (storage_scope b) = true) bufs)).

Definition resource_usage (scope : Stmt) : list (string * Z) :=
  [ ("max_threads_per_block", block_threads [] (thread_bindings scope));
    ("max_shared_memory_per_block", scope_bytes "shared" (allocations scope));
    ("max_local_memory_per_block", scope_bytes "local" (allocations scope)) ]
  ++ other_counters scope.

Definition within_limit (constraints : gmap string Z) (u : string * Z) : bool :=
  match constraints !! u.1 with
  | Some limit => (u.2 <=? limit)%Z
  | None => true
  end.

(** Modelled from the spec: the native [verify_gpu_code] (section 4.5).
    For each kernel launch scope the resource usage is computed and every
    counter is compared with the limit the caller gave under its name; a
    counter whose name has no limit is not compared. *)
Definition verify_gpu_code (func : PrimFunc) (constraints : gmap string Z)
  : bool :=
  forallb (λ scope, forallb (within_limit constraints) (resource_usage scope))
          (kernel_scopes (func_body func)).

(** *** Region analysis *)

Record Range := mkRange { range_min : Z; range_extent : Z }.

Record BufferRegion := mkBufferRegion {
  region_buffer : Buffer;
  region : list Range
}.

(** The declared domain of a bound variable when both ends are constants,
    as a closed interval. *)
Definition const_domain (lo ext : PrimExpr) : option (Z * Z) :=
  match lo, ext with
  | IntImm l, IntImm e => Some (l, l + e - 1)%Z
  | _, _ => None
  end.

Definition bind_domain (dom : gmap positive (Z * Z)) (v : Var)
    (lo ext : PrimExpr) : gmap positive (Z * Z) :=
  match const_domain lo ext with
  | Some d => <[var_id v := d]> dom
  | None => delete (var_id v) dom
  end.

Definition scope_domains (dom : gmap positive (Z * Z)) (n : ScopeNode)
  : gmap positive (Z * Z) :=
  match n with
  | LoopScope _ v lo ext _ => bind_domain dom v lo ext
  | BlockScope _ _ ivs =>
      foldl (λ d iv, bind_domain d (iter_var iv) (dom_min iv) (dom_extent iv))
            dom ivs
  end.

Definition chain_domains (chain : list ScopeNode) : gmap positive (Z * Z) :=
  foldl scope_domains ∅ chain.

(** The interval an index expression ranges over when its variables range
    over their domains; [None] when the expression cannot be bounded. *)
Fixpoint int_set (dom : gmap positive (Z * Z)) (e : PrimExpr)
  : option (Z * Z) :=
  match e with
  | IntImm n => Some (n, n)
  | VarE v => dom !! var_id v
  | BinE op a b =>
      match int_set dom a, int_set dom b with
      | Some (la, ha), Some (lb, hb) =>
          match op with
          | OpAdd => Some (la + lb, ha + hb)
          | OpSub => Some (la - hb, ha - lb)
          | OpMul =>
              Some (Z.min (Z.min (la * lb) (la * hb))
                          (Z.min (ha * lb) (ha * hb)),
                    Z.max (Z.max (la * lb) (la * hb))
                          (Z.max (ha * lb) (ha * hb)))
          | OpMin => Some (Z.min la lb, Z.min ha hb)
          | OpMax => Some (Z.max la lb, Z.max ha hb)
          | _ => None
          end
      | _, _ => None
      end
  | _ => None
  end%Z.

(** One range per index; an index that cannot be bounded touches the whole
    dimension. *)
Fixpoint access_ranges (dom : gmap positive (Z * Z)) (idx : list PrimExpr)
    (shp : list Z) : list Range :=
  match idx with
  | [] => []
  | e :: r =>
      match int_set dom e with
      | Some (l, h) => mkRange l (h - l + 1)
      | None => mkRange 0 (hd 0%Z shp)
      end :: access_ranges dom r (tl shp)
  end.

Definition full_region (b : Buffer) : list Range := map (mkRange 0) (shape b).

(** The smallest range containing two ranges. *)
Definition range_hull (r s : Range) : Range :=
  let lo := Z.min (range_min r) (range_min s) in
  let hi := Z.max (range_min r + range_extent r) (range_min s + range_extent s) in
  mkRange lo (hi - lo).

Fixpoint region_hull (r s : list Range) : list Range :=
  match r, s with
  | x :: r', y :: s' => range_hull x y :: region_hull r' s'
  | [], _ => s
  | _, [] => r
  end.

(** Record an access: widen the region of a buffer already listed, or list
    the buffer after those met before. *)
Fixpoint update_region (l : list BufferRegion) (b : Buffer) (rs : list Range)
  : list BufferRegion :=
  match l with
  | [] => [mkBufferRegion b rs]
  | x :: l' =>
      if buffer_same_as (region_buffer x) b
      then mkBufferRegion (region_buffer x) (region_hull (region x) rs) :: l'
      else x :: update_region l' b rs
  end.

Inductive AccessKind := ReadAccess | WriteAccess | OpaqueAccess.

(** How a visit touches a buffer.  A use of a handle variable that the
    buffer-var map knows is an opaque access to the whole buffer. *)
Definition classify (buffer_var_map : gmap positive Buffer) (v : Visit)
  : option (AccessKind * Buffer * list Range) :=
  match action v with
  | Load b idx =>
      Some (ReadAccess, b,
            access_ranges (chain_domains (ancestors v)) idx (shape b))
  | Store b idx =>
      Some (WriteAccess, b,
            access_ranges (chain_domains (ancestors v)) idx (shape b))
  | Use x =>
      match buffer_var_map !! var_id x with
      | Some b => Some (OpaqueAccess, b, full_region b)
      | None => None
      end
  | Bind _ => None
  end.

Record Detector := mkDetector {
  read_regions : list BufferRegion;
  write_regions : list BufferRegion;
  opaque_regions : list BufferRegion
}.

Definition detector_visit (buffer_var_map : gmap positive Buffer)
    (d : Detector) (v : Visit) : Detector :=
  match classify buffer_var_map v with
  | Some (ReadAccess, b, rs) =>
      mkDetector (update_region (read_regions d) b rs) (write_regions d)
                 (opaque_regions d)
  | Some (WriteAccess, b, rs) =>
      mkDetector (read_regions d) (update_region (write_regions d) b rs)
                 (opaque_regions d)
  | Some (OpaqueAccess, b, rs) =>
      mkDetector (read_regions d) (write_regions d)
                 (update_region (opaque_regions d) b rs)
  | None => d
  end.

Definition detect_block (block : Stmt) (buffer_var_map : gmap positive Buffer)
  : Detector :=
  foldl (detector_visit buffer_var_map) (mkDetector [] [] [])
        (walk_stmt [] [] block).

(** Modelled from the spec: the native [GetBlockAccessRegion] (section
    4.6).  For every buffer touched in the block it infers the bounding
    footprint of the reads, of the writes and of the opaque accesses. *)
Definition GetBlockAccessRegion (block : Stmt)
    (buffer_var_map : gmap positive Buffer) : list (list BufferRegion) :=
  let d := detect_block block buffer_var_map in
  [read_regions d; write_regions d; opaque_regions d].

Definition count_as (l opaques : list BufferRegion) : list BufferRegion :=
  foldl (λ acc o, update_region acc (region_buffer o) (region o)) l opaques.

(** Modelled from the spec: the native [GetBlockReadWriteRegion] (section
    4.6).  Every opaque access is counted both as a read and as a write. *)
Definition GetBlockReadWriteRegion (block : Stmt)
    (buffer_var_map : gmap positive Buffer) : list (list BufferRegion) :=
  let d := detect_block block buffer_var_map in
  [count_as (read_regions d) (opaque_regions d);
   count_as (write_regions d) (opaque_regions d)].

(** *** Buffer LCA detector *)

Fixpoint common_prefix (a b : list path) : list path :=
  match a, b with
  | x :: a', y :: b' =>
      if decide (x = y) then x :: common_prefix a' b' else []
  | _, _ => []
  end.

(** The buffer a visit accesses: directly by a load or a store, or
    indirectly when the handle variable of a buffer of the function is
    passed around. *)
Definition accessed_buffer (bm : gmap positive Buffer) (v : Visit)
  : option Buffer :=
  match action v with
  | Load b _ | Store b _ => Some b
  | Use x => bm !! var_id x
  | Bind _ => None
  end.

Definition visit_chain (v : Visit) : list path := scope_pos <$> ancestors v.

Definition lca_visit (bm : gmap positive Buffer)
    (m : gmap positive (list path)) (v : Visit) : gmap positive (list path) :=
  match accessed_buffer bm v with
  | Some b =>
      <[buffer_id b :=
          match m !! buffer_id b with
          | Some c => common_prefix c (visit_chain v)
          | None => visit_chain v
          end]> m
  | None => m
  end.

Definition lca_chains (func : PrimFunc) : gmap positive (list path) :=
  foldl (lca_visit (buffer_map func)) ∅ (walk_stmt [] [] (func_body func)).

(** Modelled from the spec: the native [detect_buffer_access_lca] (section
    4.7).  Each accessed buffer, by identity, is mapped to the position of
    the deepest loop or block on the ancestor chains of all its accesses;
    a buffer whose accesses share no loop or block is mapped to [None]. *)
Definition detect_buffer_access_lca (func : PrimFunc)
  : gmap positive (option path) :=
  last <$> lca_chains func.

End Engine.

End ffi_api.

(** ** The Python layer (tvm/tir/analysis/analysis.py) *)

(** The parameters of the engine a caller of the Python functions does not
    see. *)
Record EngineConfig := mkEngineConfig {
  symbolic_trip_count : PrimExpr → Z;
  other_counters : Stmt → list (string * Z);
  prefer_later_on_tie : bool
}.

(** What a Python caller can hand to an entry point. *)
Inductive PyObject :=
| PyPrimFunc (f : PrimFunc)
| PyIRModule (m : IRModule)
| PyOther (type_repr : string).

Definition type_of (o : PyObject) : string :=
  match o with
  | PyPrimFunc _ => "<class 'tvm.tir.function.PrimFunc'>"
  | PyIRModule _ => "<class 'tvm.ir.module.IRModule'>"
  | PyOther t => t
  end.

(** [isinstance(o, (PrimFunc, IRModule))] *)
Definition isinstance_PrimFunc_or_IRModule (o : PyObject) : bool :=
  match o with
  | PyPrimFunc _ | PyIRModule _ => true
  | PyOther _ => false
  end.

Inductive PyException := TypeError (message : string).

Inductive PyResult (A : Type) :=
| Returned (value : A)
| Raised (exc : PyException).
Arguments Returned {A} value.
Arguments Raised {A} exc.

(** The outcome of a call together with the calls it made into the native
    engine, oldest first. *)
Record Outcome (A : Type) := mkOutcome {
  result : PyResult A;
  ffi_calls : list (string * PyObject)
}.
Arguments mkOutcome {A} result ffi_calls.
Arguments result {A} o.
Arguments ffi_calls {A} o.

(** Python's [defs or []] on an optional list: [None] and the empty list
    are both falsy. *)
Definition or_empty {A} (defs : option (list A)) : list A :=
  match defs with
  | None => []
  | Some [] => []
  | Some (x :: l) => x :: l
  end.

Section PythonLayer.

Context {AllocatedBytes : Type}.
Variable ffi_calculate_allocated_bytes : PyObject → AllocatedBytes.
Variable ffi_UndefinedVars : Node → list Var → list Var.

Definition calculate_allocated_bytes (func_or_mod : PyObject)
  : Outcome AllocatedBytes :=
  if negb (isinstance_PrimFunc_or_IRModule func_or_mod)
  then mkOutcome
         (Raised (TypeError
            ("Expected argument to be PrimFunc or IRModule, but received "
             +:+ type_of func_or_mod)))
         []
  else mkOutcome
         (Returned (ffi_calculate_allocated_bytes func_or_mod))
         [("calculate_allocated_bytes", func_or_mod)].

Definition undefined_vars (node : Node) (defs : option (list Var)) : list Var :=
  let defs := or_empty defs in
  ffi_UndefinedVars node defs.

End PythonLayer.

Section PassThrough.

Variable cfg : EngineConfig.

Definition expr_deep_equal (lhs rhs : PrimExpr) : bool :=
  ffi_api.expr_deep_equal lhs rhs.

Definition verify_ssa (func : PrimFunc) : bool :=
  ffi_api.verify_ssa func.

Definition verify_gpu_code (func : PrimFunc) (constraints : gmap string Z)
  : bool :=
  ffi_api.verify_gpu_code (other_counters cfg) func constraints.

Definition get_block_access_region (block : Stmt)
    (buffer_var_map : gmap positive Buffer)
  : list (list ffi_api.BufferRegion) :=
  ffi_api.GetBlockAccessRegion block buffer_var_map.

Definition get_block_read_write_region (block : Stmt)
    (buffer_var_map : gmap positive Buffer)
  : list (list ffi_api.BufferRegion) :=
  ffi_api.GetBlockReadWriteRegion block buffer_var_map.

Definition detect_buffer_access_lca (func : PrimFunc)
  : gmap positive (option path) :=
  ffi_api.detect_buffer_access_lca func.

Definition estimate_tir_flops (stmt_or_mod : Stmt + IRModule) : float :=
  ffi_api.EstimateTIRFlops (symbolic_trip_count cfg) stmt_or_mod.

Definition find_anchor_block (mod_ : IRModule) : option Stmt :=
  ffi_api.find_anchor_block (symbolic_trip_count cfg)
    (prefer_later_on_tie cfg) mod_.

End PassThrough.

(** ** Small inputs used in the statements below *)

Definition var_x : Var := mkVar 1 "x".
Definition var_x' : Var := mkVar 2 "x".
Definition var_y : Var := mkVar 3 "y".
Definition var_i : Var := mkVar 4 "i".
Definition var_j : Var := mkVar 5 "j".
Definition var_i' : Var := mkVar 6 "i".
Definition buf_A : Buffer :=
  mkBuffer 1 (mkVar 11 "A") "A" [16%Z] Float32 "global".
Definition buf_B : Buffer :=
  mkBuffer 2 (mkVar 12 "B") "B" [16%Z] Float32 "global".
Definition buf_C : Buffer :=
  mkBuffer 3 (mkVar 13 "C") "C" [16%Z] Float32 "global".

Definition plus_one (v : Var) : PrimExpr := BinE OpAdd (VarE v) (IntImm 1).

(** [B[i] = A[i] + 1] for [i] in [0, 8). *)
Definition loop_add_8 : Stmt :=
  For var_i (IntImm 0) (IntImm 8) Serial
    (BufferStore buf_B (BinE OpAdd (BufferLoad buf_A [VarE var_i]) (IntImm 1))
       [VarE var_i]).

(** [C[i] = A[i] * B[j]] for [i] and [j] in [0, 4). *)
Definition loops_mul_4_4 : Stmt :=
  For var_i (IntImm 0) (IntImm 4) Serial
    (For var_j (IntImm 0) (IntImm 4) Serial
       (BufferStore buf_C
          (BinE OpMul (BufferLoad buf_A [VarE var_i])
                      (BufferLoad buf_B [VarE var_j]))
          [VarE var_i])).

(** ** Notions the statements are phrased with *)

(** All the nodes of an expression tree, the node itself first. *)
Fixpoint subexprs (e : PrimExpr) : list PrimExpr :=
  e :: match e with
       | VarE _ | IntImm _ => []
       | BinE _ a b => subexprs a ++ subexprs b
       | NotE a => subexprs a
       | SelectE c t f => subexprs c ++ subexprs t ++ subexprs f
       | LetE _ x b => subexprs x ++ subexprs b
       | BufferLoad _ idx => flat_map subexprs idx
       | CallE _ args => flat_map subexprs args
       end.

(** Arithmetic, comparison and logical operator nodes. *)
Definition is_operator (e : PrimExpr) : bool :=
  match e with
  | BinE _ _ _ | NotE _ => true
  | _ => false
  end.

Definition operator_nodes (e : PrimExpr) : list PrimExpr :=
  filter (λ x, is_operator x = true) (subexprs e).

(** A nest of serial loops of constant extents around a body, outermost
    loop first. *)
Fixpoint loop_nest (loops : list (Var * Z)) (body : Stmt) : Stmt :=
  match loops with
  | [] => body
  | (v, n) :: r => For v (IntImm 0) (IntImm n) Serial (loop_nest r body)
  end.

Definition productZ (l : list Z) : Z := foldr Z.mul 1%Z l.

(** A block carrying an init statement. *)
Definition carries_init (s : Stmt) : Prop :=
  match s with
  | Block _ _ (Some _) _ => True
  | _ => False
  end.

(** The init-bearing blocks of a module: the sub-statements of the bodies of
    its functions that are blocks with an init statement. *)
Definition init_block_of (m : IRModule) (b : Stmt) : Prop :=
  ∃ name f p,
    functions m !! name = Some (TirFunc f)
    ∧ stmt_at p (func_body f) = Some b
    ∧ carries_init b.

(** A reduction over [n] elements: [C[0] = 0] as init, [C[0] = C[0] + A[i]]
    for [i] in [0, n) as body. *)
Definition reduction_block (name : string) (n : Z) : Stmt :=
  Block name [] (Some (BufferStore buf_C (IntImm 0) [IntImm 0]))
    (For var_i (IntImm 0) (IntImm n) Serial
       (BufferStore buf_C
          (BinE OpAdd (BufferLoad buf_C [IntImm 0]) (BufferLoad buf_A [VarE var_i]))
          [IntImm 0])).

Definition two_reductions : IRModule :=
  mkIRModule
    {[ "main" :=
         TirFunc (mkPrimFunc [] ∅
                    (SeqStmt [reduction_block "small" 10;
                              reduction_block "large" 100])) ]}.

Definition no_reduction : IRModule :=
  mkIRModule {[ "main" := TirFunc (mkPrimFunc [] ∅ loop_add_8) ]}.

(** A kernel of 4 blocks of 1024 threads with 1024 bytes of shared memory. *)
Definition shared_buf : Buffer :=
  mkBuffer 4 (mkVar 14 "S") "S" [256%Z] Float32 "shared".

Definition kernel_1024 : PrimFunc :=
  mkPrimFunc [] ∅
    (For var_i (IntImm 0) (IntImm 4) (ThreadBinding "blockIdx.x")
       (For var_j (IntImm 0) (IntImm 1024) (ThreadBinding "threadIdx.x")
          (Allocate shared_buf
             (BufferStore shared_buf (IntImm 0) [IntImm 0])))).

Definition plain_config : EngineConfig :=
  mkEngineConfig (λ _, 0%Z) (λ _, []) false.

(** Two sibling loops, both binding the variable [u] and [v] in turn. *)
Definition sibling_loops (u v : Var) : PrimFunc :=
  mkPrimFunc [] ∅
    (SeqStmt
       [For u (IntImm 0) (IntImm 8) Serial
          (BufferStore buf_A (IntImm 0) [VarE u]);
        For v (IntImm 0) (IntImm 8) Serial
          (BufferStore buf_B (IntImm 0) [VarE v])]).

(** A loop over [v] nested in a loop over [u]. *)
Definition nested_loops (u v : Var) : PrimFunc :=
  mkPrimFunc [] ∅
    (For u (IntImm 0) (IntImm 8) Serial
       (For v (IntImm 0) (IntImm 8) Serial
          (BufferStore buf_A (IntImm 0) [VarE v]))).

(** The binding sites of a function, in walk order. *)
Definition function_binding_sites (func : PrimFunc) : list Var :=
  ffi_api.binding_sites (walk_stmt [] [] (func_body func)).

(** Some identity has two binding sites. *)
Definition bound_twice (sites : list Var) : Prop :=
  ∃ i j u v,
    i ≠ j ∧ sites !! i = Some u ∧ sites !! j = Some v ∧ var_id u = var_id v.

(** [A[i] = y + x + y] for [i] in [0, 8): [y] is met before [x], and [i] is
    bound by the loop. *)
Definition uses_y_x_y : Stmt :=
  For var_i (IntImm 0) (IntImm 8) Serial
    (BufferStore buf_A
       (BinE OpAdd (BinE OpAdd (VarE var_y) (VarE var_x)) (VarE var_y))
       [VarE var_i]).

(** The actions met by the walk over a node, in encounter order. *)
Definition node_actions (n : Node) : list Action := action <$> walk_node n.

(** After the actions [pre], the variable [v] is not defined: it is neither
    among the caller's definitions nor bound by one of [pre]. *)
Definition undefined_after (defs : list Var) (pre : list Action) (v : Var)
  : Prop :=
  (var_id v ∉ var_id <$> defs) ∧ (∀ w, Bind w ∈ pre → var_id w ≠ var_id v).

(** The [k]-th action is a use of [v] while [v] is not defined. *)
Definition undefined_use (defs : list Var) (acts : list Action) (k : nat)
    (v : Var) : Prop :=
  acts !! k = Some (Use v) ∧ undefined_after defs (take k acts) v.

(** [found] holds exactly the variables that are used while undefined. *)
Definition reports_undefined_uses (defs : list Var) (acts : list Action)
    (found : list Var) : Prop :=
  (∀ v, v ∈ found → ∃ k, undefined_use defs acts k v)
  ∧ (∀ k v, undefined_use defs acts k v → var_id v ∈ var_id <$> found).

(** [found] is ordered by first encounter: of two variables of [found], the
    earlier one has an undefined use before every undefined use of the
    later one. *)
Definition in_first_encounter_order (defs : list Var) (acts : list Action)
    (found : list Var) : Prop :=
  ∀ i j u v,
    i < j → found !! i = Some u → found !! j = Some v →
    ∃ k, undefined_use defs acts k u
         ∧ ∀ k' w, undefined_use defs acts k' w → var_id w = var_id v → k < k'.

(** *** Region analysis *)

Definition region_id (r : ffi_api.BufferRegion) : positive :=
  buffer_id (ffi_api.region_buffer r).

(** The [k]-th step of the depth-first traversal of the block is an access
    of the given kind to the buffer [b]. *)
Definition access_at (block : Stmt) (buffer_var_map : gmap positive Buffer)
    (k : nat) (kind : ffi_api.AccessKind) (b : Buffer) : Prop :=
  ∃ v rs,
    walk_stmt [] [] block !! k = Some v
    ∧ ffi_api.classify buffer_var_map v = Some (kind, b, rs).

(** A list of regions holds the buffers accessed in the given way, each
    once, in the order of their first such access. *)
Definition ordered_by_first_access (block : Stmt)
    (buffer_var_map : gmap positive Buffer) (kind : ffi_api.AccessKind)
    (l : list ffi_api.BufferRegion) : Prop :=
  NoDup (region_id <$> l)
  ∧ (∀ r, r ∈ l →
          ∃ k, access_at block buffer_var_map k kind (ffi_api.region_buffer r))
  ∧ (∀ k b, access_at block buffer_var_map k kind b →
            buffer_id b ∈ region_id <$> l)
  ∧ (∀ i j r1 r2,
       i < j → l !! i = Some r1 → l !! j = Some r2 →
       ∃ k, access_at block buffer_var_map k kind (ffi_api.region_buffer r1)
            ∧ ∀ k' b', access_at block buffer_var_map k' kind b' →
                       buffer_id b' = region_id r2 → k < k').

Definition range_covers (big small : ffi_api.Range) : Prop :=
  (ffi_api.range_min big ≤ ffi_api.range_min small
   ∧ ffi_api.range_min small + ffi_api.range_extent small
     ≤ ffi_api.range_min big + ffi_api.range_extent big)%Z.

(** Dimension by dimension, [big] contains [small]. *)
Fixpoint region_covers (big small : list ffi_api.Range) {struct small}
  : Prop :=
  match small, big with
  | [], _ => True
  | s :: small', b :: big' => range_covers b s ∧ region_covers big' small'
  | _ :: _, [] => False
  end.

(** The footprint [rs] on the buffer of identity [id] appears in a list:
    the list has a region of that buffer that contains it. *)
Definition appears_in (id : positive) (rs : list ffi_api.Range)
    (l : list ffi_api.BufferRegion) : Prop :=
  ∃ r, r ∈ l ∧ region_id r = id ∧ region_covers (ffi_api.region r) rs.

(** The spec's example: the block writes [A[i]] and reads [A[i - 1]] for
    [i] in [0, 16). *)
Definition shift_block : Stmt :=
  Block "shift" [] None
    (For var_i (IntImm 0) (IntImm 16) Serial
       (BufferStore buf_A
          (BufferLoad buf_A [BinE OpSub (VarE var_i) (IntImm 1)])
          [VarE var_i])).

(** [C[i] = B[i] + A[i] + B[i]] for [i] in [0, 16): [B] is read first. *)
Definition order_block : Stmt :=
  Block "order" [] None
    (For var_i (IntImm 0) (IntImm 16) Serial
       (BufferStore buf_C
          (BinE OpAdd
             (BinE OpAdd (BufferLoad buf_B [VarE var_i])
                         (BufferLoad buf_A [VarE var_i]))
             (BufferLoad buf_B [VarE var_i]))
          [VarE var_i])).

(** The same block with the handle of [B] handed to an external call. *)
Definition opaque_block : Stmt :=
  Block "outer" [] None
    (SeqStmt [shift_block; Evaluate (CallE "extern" [VarE (data buf_B)])]).

Definition handles_A_B : gmap positive Buffer :=
  {[ var_id (data buf_A) := buf_A; var_id (data buf_B) := buf_B ]}.

(** *** Buffer LCA *)

(** The [k]-th step of the walk over the function accesses the buffer of
    identity [id], directly or through its handle, under the ancestor chain
    [chain] of loops and blocks (root first). *)
Definition buffer_access_at (func : PrimFunc) (k : nat) (id : positive)
    (chain : list path) : Prop :=
  ∃ v b,
    walk_stmt [] [] (func_body func) !! k = Some v
    ∧ ffi_api.accessed_buffer (buffer_map func) v = Some b
    ∧ buffer_id b = id
    ∧ ffi_api.visit_chain v = chain.

Definition accessed (func : PrimFunc) (id : positive) : Prop :=
  ∃ k chain, buffer_access_at func k id chain.

(** The statement at [q] is on the ancestor chain of every access. *)
Definition common_ancestor (func : PrimFunc) (id : positive) (q : path)
  : Prop :=
  ∀ k chain, buffer_access_at func k id chain → q ∈ chain.

Definition is_loop_or_block (s : Stmt) : Prop :=
  match s with
  | For _ _ _ _ _ | Block _ _ _ _ => True
  | _ => False
  end.

(** [A[j] = 0] inside a loop over [j] inside a loop over [i]. *)
Definition inner_loop : Stmt :=
  For var_j (IntImm 0) (IntImm 4) Serial
    (BufferStore buf_A (IntImm 0) [VarE var_j]).

Definition innermost_access : PrimFunc :=
  mkPrimFunc [] ∅ (For var_i (IntImm 0) (IntImm 4) Serial inner_loop).

(** Two sibling loops under one block, both storing to [A]; the second one
    also hands the handle of [B] to a call. *)
Definition parent_block : Stmt :=
  Block "root" [] None
    (SeqStmt
       [For var_i (IntImm 0) (IntImm 4) Serial
          (BufferStore buf_A (IntImm 0) [VarE var_i]);
        For var_j (IntImm 0) (IntImm 4) Serial
          (SeqStmt [BufferStore buf_A (IntImm 1) [VarE var_j];
                    Evaluate (CallE "extern" [VarE (data buf_B)])])]).

Definition sibling_access : PrimFunc :=
  mkPrimFunc [] handles_A_B parent_block.

(** The scopes entered on the way down from a statement at position [here]
    to one of the nodes below it, outermost first. *)
Inductive descent : path → Stmt → list ScopeNode → Prop :=
| descent_here here s : descent here s []
| descent_seq here ss i x e :
    ss !! i = Some x → descent (here ++ [i]) x e →
    descent here (SeqStmt ss) e
| descent_then here c t el e :
    descent (here ++ [0]) t e → descent here (IfThenElse c t el) e
| descent_else here c t el e :
    descent (here ++ [1]) el e → descent here (IfThenElse c t (Some el)) e
| descent_for here v lo ext k b e :
    descent (here ++ [0]) b e →
    descent here (For v lo ext k b) (LoopScope here v lo ext k :: e)
| descent_alloc here buf b e :
    descent (here ++ [0]) b e → descent here (Allocate buf b) e
| descent_let here v x b e :
    descent (here ++ [0]) b e → descent here (LetStmt v x b) e
| descent_init here n ivs i b e :
    descent (here ++ [0]) i e →
    descent here (Block n ivs (Some i) b) (BlockScope here n ivs :: e)
| descent_body here n ivs i b e :
    descent (here ++ [1]) b e →
    descent here (Block n ivs i b) (BlockScope here n ivs :: e).

(** ** Invariants of the passes, used in the proofs *)

(** What the detector knows after the actions [pre]. *)
Definition use_def_inv (defs : list Var) (pre : list Action)
    (st : ffi_api.UseDefState) : Prop :=
  (∀ x, x ∈ ffi_api.defined st
        ↔ x ∈ var_id <$> defs ∨ ∃ w, Bind w ∈ pre ∧ var_id w = x)
  ∧ (∀ v, v ∈ ffi_api.undefined st → ∃ k, undefined_use defs pre k v)
  ∧ (∀ k v, undefined_use defs pre k v
            → var_id v ∈ var_id <$> ffi_api.undefined st)
  ∧ NoDup (var_id <$> ffi_api.undefined st)
  ∧ (∀ i j u v,
       i < j →
       ffi_api.undefined st !! i = Some u →
       ffi_api.undefined st !! j = Some v →
       ∃ k, undefined_use defs pre k u
            ∧ ∀ k' w, undefined_use defs pre k' w → var_id w = var_id v → k < k').

(** Recording the accesses that [sel] selects. *)
Definition record_access (sel : Visit → option (Buffer * list ffi_api.Range))
    (l : list ffi_api.BufferRegion) (v : Visit) : list ffi_api.BufferRegion :=
  match sel v with
  | Some (b, rs) => ffi_api.update_region l b rs
  | None => l
  end.

(** The [k]-th visit is a selected access to [b]. *)
Definition selects (sel : Visit → option (Buffer * list ffi_api.Range))
    (vs : list Visit) (k : nat) (b : Buffer) : Prop :=
  ∃ v rs, vs !! k = Some v ∧ sel v = Some (b, rs).

(** What a list of regions satisfies after recording the visits [vs]. *)
Definition collect_inv (sel : Visit → option (Buffer * list ffi_api.Range))
    (vs : list Visit) (l : list ffi_api.BufferRegion) : Prop :=
  NoDup (region_id <$> l)
  ∧ (∀ r, r ∈ l → ∃ k, selects sel vs k (ffi_api.region_buffer r))
  ∧ (∀ k v b rs, vs !! k = Some v → sel v = Some (b, rs) →
                 appears_in (buffer_id b) rs l)
  ∧ (∀ i j r1 r2,
       i < j → l !! i = Some r1 → l !! j = Some r2 →
       ∃ k, selects sel vs k (ffi_api.region_buffer r1)
            ∧ ∀ k' b', selects sel vs k' b' → buffer_id b' = region_id r2 → k < k').

(** The accesses of one kind. *)
Definition sel_kind (bvm : gmap positive Buffer) (kind : ffi_api.AccessKind)
    (v : Visit) : option (Buffer * list ffi_api.Range) :=
  match ffi_api.classify bvm v with
  | Some (k, b, rs) =>
      match k, kind with
      | ffi_api.ReadAccess, ffi_api.ReadAccess
      | ffi_api.WriteAccess, ffi_api.WriteAccess
      | ffi_api.OpaqueAccess, ffi_api.OpaqueAccess => Some (b, rs)
      | _, _ => None
      end
  | None => None
  end.

(** The [k]-th visit accesses the buffer [id] under the chain [c]. *)
Definition visit_access (bm : gmap positive Buffer) (vs : list Visit)
    (k : nat) (id : positive) (c : list path) : Prop :=
  ∃ v b, vs !! k = Some v ∧ ffi_api.accessed_buffer bm v = Some b
         ∧ buffer_id b = id ∧ ffi_api.visit_chain v = c.

(** [r] is the longest list that starts the chain of every access. *)
Definition longest_common_prefix (bm : gmap positive Buffer)
    (vs : list Visit) (id : positive) (r : list path) : Prop :=
  (∀ k c, visit_access bm vs k id c → r `prefix_of` c)
  ∧ (∀ r', (∀ k c, visit_access bm vs k id c → r' `prefix_of` c) →
           r' `prefix_of` r).

(** What the LCA detector knows after the visits [vs]. *)
Definition lca_inv (bm : gmap positive Buffer) (vs : list Visit)
    (m : gmap positive (list path)) : Prop :=
  ∀ id,
    match m !! id with
    | None => ∀ k c, ¬ visit_access bm vs k id c
    | Some r =>
        (∃ k c, visit_access bm vs k id c) ∧ longest_common_prefix bm vs id r
    end.

(** ** Notions used by the further properties *)

(** Pairwise comparison of two lists of the same length. *)
Fixpoint forall2b {A} (f : A → A → bool) (l l' : list A) : bool :=
  match l, l' with
  | [], [] => true
  | x :: r, x' :: r' => f x x' && forall2b f r r'
  | _, _ => false
  end.

(** The constant extents of the loops of a statement. *)
Fixpoint constant_extents (s : Stmt) : list Z :=
  match s with
  | SeqStmt ss => flat_map constant_extents ss
  | IfThenElse _ t e =>
      constant_extents t
      ++ match e with Some e' => constant_extents e' | None => [] end
  | For _ _ ext _ b =>
      match ext with IntImm n => [n] | _ => [] end ++ constant_extents b
  | Allocate _ b | LetStmt _ _ b => constant_extents b
  | BufferStore _ _ _ | Evaluate _ => []
  | Block _ _ i b =>
      match i with Some i' => constant_extents i' | None => [] end
      ++ constant_extents b
  end.

(** The function with the same signature and another body. *)
Definition with_body (func : PrimFunc) (s : Stmt) : PrimFunc :=
  mkPrimFunc (params func) (buffer_map func) s.

(** The value of an index expression under an assignment of its variables,
    in integer arithmetic. *)
Fixpoint eval_index (env : gmap positive Z) (e : PrimExpr) : option Z :=
  match e with
  | IntImm n => Some n
  | VarE v => env !! var_id v
  | BinE op a b =>
      match eval_index env a, eval_index env b with
      | Some x, Some y =>
          match op with
          | OpAdd => Some (x + y)
          | OpSub => Some (x - y)
          | OpMul => Some (x * y)
          | OpMin => Some (Z.min x y)
          | OpMax => Some (Z.max x y)
          | _ => None
          end
      | _, _ => None
      end
  | _ => None
  end%Z.

(** The assignment gives every variable with a recorded domain a value of
    that domain. *)
Definition within_domains (env : gmap positive Z)
    (dom : gmap positive (Z * Z)) : Prop :=
  ∀ id l h, dom !! id = Some (l, h) → ∃ z, env !! id = Some z ∧ (l ≤ z ≤ h)%Z.

(** The value [z] lies in the range. *)
Definition in_range (z : Z) (r : ffi_api.Range) : Prop :=
  (ffi_api.range_min r ≤ z < ffi_api.range_min r + ffi_api.range_extent r)%Z.

(** * Properties *)

(** ** The Python layer *)

(** C10: calling [undefined_vars] without [defs], that is with [None], is
    the same as calling it with the empty list, whatever the engine does
    with the list it is handed. *)
Theorem undefined_vars_defs_default
    (ffi_UndefinedVars : Node → list Var → list Var) (node : Node) :
  undefined_vars ffi_UndefinedVars node None
  = undefined_vars ffi_UndefinedVars node (Some []).
Proof. unfold undefined_vars. simpl. reflexivity. Qed.

Lemma undefined_vars_passes_defs
    (ffi_UndefinedVars : Node → list Var → list Var) node defs :
  undefined_vars ffi_UndefinedVars node (Some defs)
  = ffi_UndefinedVars node defs.
Proof. unfold undefined_vars. by destruct defs. Qed.

(** C9: an argument that is neither a PrimFunc nor an IRModule makes
    [calculate_allocated_bytes] raise the TypeError naming the type it
    received, and it does so without a single call into the engine: the
    argument is not looked at beyond its type. *)
Theorem calculate_allocated_bytes_rejects_wrong_kind
    {R : Type} (ffi : PyObject → R) (arg : PyObject) :
  isinstance_PrimFunc_or_IRModule arg = false →
  calculate_allocated_bytes ffi arg
  = mkOutcome
      (Raised (TypeError
         ("Expected argument to be PrimFunc or IRModule, but received "
          +:+ type_of arg)))
      [].
Proof.
  intros Hkind. unfold calculate_allocated_bytes. rewrite Hkind. reflexivity.
Qed.

Lemma calculate_allocated_bytes_rejects_wrong_kind_witness :
  calculate_allocated_bytes (λ _, 0%Z) (PyOther "<class 'int'>")
  = mkOutcome
      (Raised (TypeError
         "Expected argument to be PrimFunc or IRModule, but received <class 'int'>"))
      [].
Proof.
  apply (calculate_allocated_bytes_rejects_wrong_kind (λ _, 0%Z)
           (PyOther "<class 'int'>")).
  reflexivity.
Defined.

Lemma calculate_allocated_bytes_accepts {R : Type} (ffi : PyObject → R) arg :
  isinstance_PrimFunc_or_IRModule arg = true →
  calculate_allocated_bytes ffi arg
  = mkOutcome (Returned (ffi arg)) [("calculate_allocated_bytes", arg)].
Proof.
  intros Hkind. unfold calculate_allocated_bytes. rewrite Hkind. reflexivity.
Qed.

(** ** Structural equality *)

Section DeepEqual.

Lemma same_as_refl v : same_as v v = true.
Proof. apply Pos.eqb_refl. Qed.

Lemma same_as_iff u v : same_as u v = true ↔ var_id u = var_id v.
Proof. apply Pos.eqb_eq. Qed.

Lemma binop_eqb_refl op : binop_eqb op op = true.
Proof. by destruct op. Qed.

Lemma expr_deep_equal_refl e : ffi_api.expr_deep_equal e e = true.
Proof.
  induction e as [v|n|op a b IHa IHb|a IHa|c t f IHc IHt IHf|v x b IHx IHb
                  |buf idx IH|op args IH] using PrimExpr_nested_ind; simpl.
  - apply same_as_refl.
  - apply Z.eqb_refl.
  - by rewrite binop_eqb_refl, IHa, IHb.
  - done.
  - by rewrite IHc, IHt, IHf.
  - by rewrite same_as_refl, IHx, IHb.
  - unfold buffer_same_as. rewrite Pos.eqb_refl. simpl.
    induction IH as [|x r Hx _ IHr]; [done|]. by rewrite Hx.
  - rewrite String.eqb_refl. simpl.
    induction IH as [|x r Hx _ IHr]; [done|]. by rewrite Hx.
Qed.

Lemma plus_one_equal u v :
  ffi_api.expr_deep_equal (plus_one u) (plus_one v) = true
  ↔ var_id u = var_id v.
Proof.
  unfold plus_one. simpl. rewrite andb_true_r. apply same_as_iff.
Qed.

End DeepEqual.

(** C3: [expr_deep_equal] is reflexive, and it tells variables apart by
    identity: [x + 1] equals [x + 1] over one variable, and [x + 1] differs
    from [y + 1] exactly when the two variables are different objects, the
    same name hint notwithstanding, as for the two variables called x
    above; the same holds under a let binding. *)
Theorem expr_deep_equal_reflexive_identity_sensitive :
  (∀ e, expr_deep_equal e e = true)
  ∧ (∀ x, expr_deep_equal (plus_one x) (plus_one x) = true)
  ∧ (∀ x y, expr_deep_equal (plus_one x) (plus_one y) = false
            ↔ var_id x ≠ var_id y)
  ∧ (name_hint var_x = name_hint var_x'
     ∧ expr_deep_equal (plus_one var_x) (plus_one var_x') = false)
  ∧ expr_deep_equal (LetE var_x (IntImm 1) (plus_one var_x))
                    (LetE var_y (IntImm 1) (plus_one var_y)) = false.
Proof.
  unfold expr_deep_equal. split_and!.
  - apply expr_deep_equal_refl.
  - intros x. apply expr_deep_equal_refl.
  - intros x y. rewrite <- plus_one_equal.
    destruct (ffi_api.expr_deep_equal (plus_one x) (plus_one y)); naive_solver.
  - done.
  - done.
  - done.
Qed.

(** ** FLOP estimator *)

Section Flops.

Variable stc : PrimExpr → Z.

Lemma sumZ_app l k : ffi_api.sumZ (l ++ k) = (ffi_api.sumZ l + ffi_api.sumZ k)%Z.
Proof. unfold ffi_api.sumZ. induction l; simpl; lia. Qed.

Lemma operator_nodes_list (l : list PrimExpr) :
  Forall (λ e, ffi_api.flops_expr e = Z.of_nat (length (operator_nodes e))) l →
  ffi_api.sumZ (map ffi_api.flops_expr l)
  = Z.of_nat (length (filter (λ x, is_operator x = true) (flat_map subexprs l))).
Proof.
  induction 1 as [|e r He _ IH]; [done|].
  simpl. rewrite filter_app, length_app, Nat2Z.inj_add.
  unfold ffi_api.sumZ in *. simpl. rewrite IH, He. done.
Qed.

Lemma flops_expr_counts_operators e :
  ffi_api.flops_expr e = Z.of_nat (length (operator_nodes e)).
Proof.
  induction e as [v|n|op a b IHa IHb|a IHa|c t f IHc IHt IHf|v x b IHx IHb
                  |buf idx IH|op args IH] using PrimExpr_nested_ind;
    unfold operator_nodes in *; simpl subexprs; simpl ffi_api.flops_expr.
  all: try (rewrite filter_cons_True by done).
  all: try (rewrite filter_cons_False by done).
  all: rewrite ?filter_app; simpl length;
    rewrite ?length_app, ?Nat2Z.inj_succ, ?Nat2Z.inj_add; try lia.
  - by apply operator_nodes_list.
  - by apply operator_nodes_list.
Qed.

Lemma flops_loop v lo n k body :
  ffi_api.flops_stmt stc (For v lo (IntImm n) k body)
  = (n * ffi_api.flops_stmt stc body)%Z.
Proof. reflexivity. Qed.

Lemma flops_loop_nest loops body :
  ffi_api.flops_stmt stc (loop_nest loops body)
  = (productZ (loops.*2) * ffi_api.flops_stmt stc body)%Z.
Proof.
  induction loops as [|[v n] r IH]; simpl.
  - unfold productZ. simpl. by destruct (ffi_api.flops_stmt stc body).
  - rewrite IH. unfold productZ. simpl. apply Z.mul_assoc.
Qed.

End Flops.


(** ** List helpers *)

Lemma elem_of_flat_map {A B} (f : A → list B) (l : list A) (y : B) :
  y ∈ flat_map f l ↔ ∃ x, x ∈ l ∧ y ∈ f x.
Proof.
  setoid_rewrite list_elem_of_In. apply in_flat_map.
Qed.

Lemma forallb_false {A} (f : A → bool) (l : list A) :
  forallb f l = false ↔ ∃ x, x ∈ l ∧ f x = false.
Proof.
  induction l as [|a l IH]; simpl.
  - split; [done|]. intros (x & Hx & _). by apply elem_of_nil in Hx.
  - rewrite andb_false_iff, IH. split.
    + intros [Ha|(x & Hx & Hf)]; [exists a|exists x]; split; try done;
        [left|by right].
    + intros (x & Hx & Hf). apply elem_of_cons in Hx as [->|Hx]; [by left|].
      right. by exists x.
Qed.

(** ** Anchor block finder *)

Section Anchor.

Variable stc : PrimExpr → Z.
Variable later : bool.

Abbreviation est := (ffi_api.flops_stmt stc).

Lemma pick_anchor_fold (l : list Stmt) (acc : option Stmt) (b : Stmt) :
  foldl (ffi_api.pick_anchor stc later) acc l = Some b →
  (acc = Some b ∨ b ∈ l)
  ∧ (∀ a, acc = Some a → (est a ≤ est b)%Z)
  ∧ (∀ b', b' ∈ l → (est b' ≤ est b)%Z).
Proof.
  revert acc. induction l as [|c l IH]; intros acc Hfold; simpl in Hfold.
  - split_and!; [by left| |].
    + intros a Ha. rewrite Ha in Hfold. injection Hfold as ->. lia.
    + intros b' Hb'. by apply elem_of_nil in Hb'.
  - apply IH in Hfold as (Hin & Hacc & Hall).
    assert (Hc : ∀ a, acc = Some a →
                   (est a ≤ est b)%Z ∧ (est c ≤ est b)%Z ∧ (b = c ∨ b = a ∨ b ∈ l)).
    { intros a ->. simpl in *. unfold ffi_api.beats in *.
      destruct later;
        [destruct (Z.leb_spec (est a) (est c))
        |destruct (Z.ltb_spec (est a) (est c))].
      all: specialize (Hacc _ eq_refl).
      all: split_and!; try lia.
      all: destruct Hin as [[= <-]|Hin]; auto. }
    destruct acc as [a|].
    + destruct (Hc a eq_refl) as (Ha & Hcb & Hb). split_and!.
      * destruct Hb as [->|[->|Hb]]; [right; left|by left|right; by right].
      * by intros ? [= <-].
      * intros b' [->|Hb']%elem_of_cons; auto.
    + simpl in *. split_and!.
      * right. destruct Hin as [[= <-]|Hin]; [left|by right].
      * done.
      * intros b' [->|Hb']%elem_of_cons; auto.
Qed.

Lemma pick_anchor_fold_some (l : list Stmt) (a : Stmt) :
  is_Some (foldl (ffi_api.pick_anchor stc later) (Some a) l).
Proof.
  revert a. induction l as [|c l IH]; intros a; simpl; [by eexists|].
  destruct (ffi_api.beats stc later c a); apply IH.
Qed.

Lemma pick_anchor_none (l : list Stmt) :
  foldl (ffi_api.pick_anchor stc later) None l = None ↔ l = [].
Proof.
  destruct l as [|c l]; simpl; [done|]. split; [|done].
  intros H. destruct (pick_anchor_fold_some l c) as [b Hb]. congruence.
Qed.

End Anchor.

Lemma init_blocks_spec (s b : Stmt) :
  b ∈ ffi_api.init_blocks s ↔ ∃ p, stmt_at p s = Some b ∧ carries_init b.
Proof.
  revert b.
  induction s as [ss IH|c t e IHt IHe|v lo ext k body IH|buf body IH
                  |buf x idx|v x body IH|e|n ivs i body IHi IHb]
    using Stmt_nested_ind; intros b.
  - simpl. rewrite elem_of_flat_map. rewrite Forall_forall in IH. split.
    + intros (x & Hx & Hb). apply IH in Hb as (p & Hp & Hc); [|done].
      apply list_elem_of_lookup in Hx as [i Hi].
      exists (i :: p). simpl. by rewrite Hi.
    + intros ([|i p] & Hp & Hc); simpl in Hp.
      * injection Hp as <-. done.
      * destruct (ss !! i) as [x|] eqn:Hi; [|done].
        exists x. split; [by eapply list_elem_of_lookup_2|].
        apply IH; [by eapply list_elem_of_lookup_2|]. by exists p.
  - simpl. rewrite elem_of_app. split.
    + intros [Hb|Hb].
      * apply IHt in Hb as (p & Hp & Hc). by exists (0 :: p).
      * destruct e as [e'|]; [|by apply elem_of_nil in Hb].
        apply IHe in Hb as (p & Hp & Hc). by exists (1 :: p).
    + intros ([|[|[|i]] p] & Hp & Hc); simpl in Hp; try done.
      * injection Hp as <-. done.
      * left. apply IHt. by exists p.
      * destruct e as [e'|]; [|done]. right. apply IHe. by exists p.
  - simpl. rewrite IH. split.
    + intros (p & Hp & Hc). by exists (0 :: p).
    + intros ([|[|i] p] & Hp & Hc); simpl in Hp; try done.
      * injection Hp as <-. done.
      * by exists p.
  - simpl. rewrite IH. split.
    + intros (p & Hp & Hc). by exists (0 :: p).
    + intros ([|[|i] p] & Hp & Hc); simpl in Hp; try done.
      * injection Hp as <-. done.
      * by exists p.
  - simpl. split; [by intros ?%elem_of_nil|].
    intros ([|i p] & Hp & Hc); simpl in Hp; [|done]. injection Hp as <-. done.
  - simpl. rewrite IH. split.
    + intros (p & Hp & Hc). by exists (0 :: p).
    + intros ([|[|i] p] & Hp & Hc); simpl in Hp; try done.
      * injection Hp as <-. done.
      * by exists p.
  - simpl. split; [by intros ?%elem_of_nil|].
    intros ([|i p] & Hp & Hc); simpl in Hp; [|done]. injection Hp as <-. done.
  - simpl. rewrite elem_of_app. split.
    + intros [Hb|Hb].
      * destruct i as [i'|]; [|by apply elem_of_nil in Hb].
        apply elem_of_cons in Hb as [->|Hb]; [by exists []|].
        apply IHi in Hb as (p & Hp & Hc). by exists (0 :: p).
      * apply IHb in Hb as (p & Hp & Hc). by exists (1 :: p).
    + intros ([|[|[|j]] p] & Hp & Hc); simpl in Hp; try done.
      * injection Hp as <-. destruct i as [i'|]; [|done]. left. by left.
      * destruct i as [i'|]; [|done]. left. right. apply IHi. by exists p.
      * right. apply IHb. by exists p.
Qed.

Lemma module_funcs_spec (m : IRModule) (f : PrimFunc) :
  f ∈ ffi_api.module_funcs m ↔ ∃ name, functions m !! name = Some (TirFunc f).
Proof.
  unfold ffi_api.module_funcs. rewrite list_elem_of_omap. split.
  - intros ([name g] & Hin & Hg). apply elem_of_map_to_list in Hin.
    simpl in Hg. destruct g as [f'|]; [|done]. injection Hg as ->.
    by exists name.
  - intros (name & Hname). exists (name, TirFunc f).
    split; [by apply elem_of_map_to_list|done].
Qed.

Lemma module_init_blocks_spec (m : IRModule) (b : Stmt) :
  b ∈ ffi_api.module_init_blocks m ↔ init_block_of m b.
Proof.
  unfold ffi_api.module_init_blocks, init_block_of.
  rewrite elem_of_flat_map. split.
  - intros (f & Hf & Hb). apply module_funcs_spec in Hf as (name & Hname).
    apply init_blocks_spec in Hb as (p & Hp & Hc). by exists name, f, p.
  - intros (name & f & p & Hname & Hp & Hc). exists f. split.
    + apply module_funcs_spec. by exists name.
    + apply init_blocks_spec. by exists p.
Qed.

(** C6: whenever [find_anchor_block] returns a block, it is an init-bearing
    block of the module whose estimate no other init-bearing block of the
    module exceeds; it returns [None], an ordinary value, exactly when the
    module has no init-bearing block.  Of two reductions estimated at 10.0
    and 100.0 it returns the one at 100.0, and a module without a reduction
    gives [None]. *)
Theorem find_anchor_block_selects_maximum (cfg : EngineConfig) :
  (∀ m b,
     find_anchor_block cfg m = Some b →
     init_block_of m b
     ∧ ∀ b', init_block_of m b' →
             (ffi_api.flops_stmt (symbolic_trip_count cfg) b'
              ≤ ffi_api.flops_stmt (symbolic_trip_count cfg) b)%Z)
  ∧ (∀ m, find_anchor_block cfg m = None ↔ ¬ ∃ b, init_block_of m b)
  ∧ (estimate_tir_flops cfg (inl (reduction_block "small" 10)) = 10%float
     ∧ estimate_tir_flops cfg (inl (reduction_block "large" 100)) = 100%float
     ∧ find_anchor_block cfg two_reductions
       = Some (reduction_block "large" 100))
  ∧ find_anchor_block cfg no_reduction = None.
Proof.
  unfold find_anchor_block, ffi_api.find_anchor_block. split_and!.
  - intros m b Hfind. apply pick_anchor_fold in Hfind as (Hin & _ & Hmax).
    destruct Hin as [|Hin]; [done|]. split.
    + by apply module_init_blocks_spec.
    + intros b' Hb'. by apply Hmax, module_init_blocks_spec.
  - intros m. rewrite pick_anchor_none. split.
    + intros Hnil (b & Hb). apply module_init_blocks_spec in Hb.
      rewrite Hnil in Hb. by apply elem_of_nil in Hb.
    + intros Hno. destruct (ffi_api.module_init_blocks m) as [|b l] eqn:Hl;
        [done|].
      exfalso. apply Hno. exists b. apply module_init_blocks_spec.
      rewrite Hl. by left.
  - reflexivity.
  - reflexivity.
  - destruct cfg as [stc oc []]; vm_compute; reflexivity.
  - vm_compute. reflexivity.
Qed.

Lemma find_anchor_block_selects_maximum_witness :
  init_block_of two_reductions (reduction_block "large" 100).
Proof.
  apply (proj1 (find_anchor_block_selects_maximum plain_config)
           two_reductions (reduction_block "large" 100)).
  vm_compute. reflexivity.
Defined.

(** ** GPU resource verifier *)

Lemma within_limit_false (constraints : gmap string Z) (name : string) (used : Z) :
  ffi_api.within_limit constraints (name, used) = false
  ↔ ∃ limit, constraints !! name = Some limit ∧ (limit < used)%Z.
Proof.
  unfold ffi_api.within_limit. simpl.
  destruct (constraints !! name) as [limit|].
  - rewrite Z.leb_gt. split; [by exists limit|]. by intros (? & [= <-] & ?).
  - split; [done|]. by intros (? & ? & ?).
Qed.


(** ** SSA verifier *)

Lemma binding_sites_cons (v : Visit) (vs : list Visit) :
  ffi_api.binding_sites (v :: vs)
  = match action v with
    | Bind x => x :: ffi_api.binding_sites vs
    | _ => ffi_api.binding_sites vs
    end.
Proof. unfold ffi_api.binding_sites. simpl. by destruct (action v). Qed.

Lemma ssa_fold_ok (vs : list Visit) (seen : gset positive) (ok : bool) :
  (foldl ffi_api.ssa_visit (seen, ok) vs).2 = true
  ↔ ok = true
    ∧ NoDup (var_id <$> ffi_api.binding_sites vs)
    ∧ ∀ x, x ∈ var_id <$> ffi_api.binding_sites vs → x ∉ seen.
Proof.
  revert seen ok. induction vs as [|v vs IH]; intros seen ok.
  - simpl. split; [intros ->|by intros (-> & _)].
    split_and!; [done|constructor|]. intros x Hx. by apply elem_of_nil in Hx.
  - rewrite binding_sites_cons. cbn [foldl]. unfold ffi_api.ssa_visit at 2.
    destruct (action v) as [x|x|b idx|b idx]; cbn [fst snd]; try apply IH.
    rewrite fmap_cons.
    destruct (decide (var_id x ∈ seen)) as [Hin|Hnotin]; rewrite IH.
    + split; [by intros (? & _)|]. intros (_ & _ & Hfresh).
      exfalso. apply (Hfresh (var_id x)); [by left|done].
    + rewrite NoDup_cons. split.
      * intros (-> & Hnd & Hfresh). split_and!; [done| |done|].
        -- intros Hx. apply Hfresh in Hx. apply Hx, elem_of_union_l.
           by apply elem_of_singleton.
        -- intros y [->|Hy]%elem_of_cons; [done|].
           apply Hfresh in Hy. intros Hs. by apply Hy, elem_of_union_r.
      * intros (-> & (Hx & Hnd) & Hfresh). split_and!; [done|done|].
        intros y Hy.
        assert (y ∉ seen) by (apply Hfresh; by right).
        assert (y ≠ var_id x) by (by intros ->).
        by intros [?%elem_of_singleton|?]%elem_of_union.
Qed.

Lemma not_NoDup_twice (l : list positive) :
  ¬ NoDup l ↔ ∃ i j x, i ≠ j ∧ l !! i = Some x ∧ l !! j = Some x.
Proof.
  split.
  - induction l as [|a l IH]; intros Hnd; [destruct Hnd; constructor|].
    destruct (decide (a ∈ l)) as [Hin|Hnotin].
    + apply list_elem_of_lookup in Hin as [j Hj].
      exists 0, (S j), a. by split_and!.
    + destruct IH as (i & j & x & Hij & Hi & Hj).
      { intros Hl. apply Hnd. by constructor. }
      exists (S i), (S j), x. split_and!; [lia|done|done].
  - intros (i & j & x & Hij & Hi & Hj) Hnd.
    apply Hij. by eapply NoDup_lookup.
Qed.

Lemma verify_ssa_bound_twice (func : PrimFunc) :
  ffi_api.verify_ssa func = false ↔ bound_twice (function_binding_sites func).
Proof.
  unfold ffi_api.verify_ssa, function_binding_sites, bound_twice.
  set (vs := walk_stmt [] [] (func_body func)).
  rewrite <- not_true_iff_false, ssa_fold_ok.
  transitivity (¬ NoDup (var_id <$> ffi_api.binding_sites vs)).
  - split; [|tauto]. intros Hn Hnd. apply Hn. split_and!; [done|done|].
    intros x _. apply not_elem_of_empty.
  - rewrite not_NoDup_twice. split.
    + intros (i & j & x & Hij & Hi & Hj).
      apply list_lookup_fmap_Some in Hi as (u & -> & Hu).
      apply list_lookup_fmap_Some in Hj as (v & Hv & Huv).
      by exists i, j, u, v.
    + intros (i & j & u & v & Hij & Hi & Hj & Huv).
      exists i, j, (var_id u). split_and!; [done| |].
      * by rewrite list_lookup_fmap, Hi.
      * by rewrite list_lookup_fmap, Hj, Huv.
Qed.


(** ** Undefined-variable detector *)

Section UseDef.

Variable defs : list Var.

Lemma undefined_use_snoc (pre : list Action) (a : Action) (k : nat) (v : Var) :
  undefined_use defs (pre ++ [a]) k v
  ↔ undefined_use defs pre k v
    ∨ (k = length pre ∧ a = Use v ∧ undefined_after defs pre v).
Proof.
  unfold undefined_use. split.
  - intros [Hk Hafter]. apply lookup_snoc_Some in Hk as [[Hlt Hk]|[-> ->]].
    + left. split; [done|]. by rewrite take_app_le in Hafter by lia.
    + right. by rewrite take_app_length in Hafter.
  - intros [[Hk Hafter]|(-> & -> & Hafter)].
    + pose proof (lookup_lt_Some _ _ _ Hk). split.
      * by apply lookup_app_l_Some.
      * by rewrite take_app_le by lia.
    + split.
      * apply lookup_snoc_Some. by right.
      * by rewrite take_app_length.
Qed.

Lemma use_def_inv_init :
  use_def_inv defs [] (ffi_api.mkUseDef (list_to_set (var_id <$> defs)) []).
Proof.
  unfold use_def_inv. simpl. split_and!.
  - intros x. rewrite elem_of_list_to_set. split; [by left|].
    intros [Hx|(w & Hw & _)]; [done|]. by apply elem_of_nil in Hw.
  - intros v Hv. by apply elem_of_nil in Hv.
  - intros k v [Hk _]. done.
  - constructor.
  - intros i j u v _ Hi. done.
Qed.

Lemma undefined_after_defined pre st v :
  use_def_inv defs pre st →
  undefined_after defs pre v ↔ var_id v ∉ ffi_api.defined st.
Proof.
  intros (Hdef & _). unfold undefined_after. rewrite Hdef. split.
  - intros [Hd Hb] [Hin|(w & Hw & Heq)]; [done|]. by apply (Hb w).
  - intros Hn. split.
    + intros Hin. apply Hn. by left.
    + intros w Hw Heq. apply Hn. right. by exists w.
Qed.

(** A step that reports nothing new. *)
Lemma use_def_inv_keep pre st a st' :
  use_def_inv defs pre st →
  ffi_api.undefined st' = ffi_api.undefined st →
  (∀ x, x ∈ ffi_api.defined st'
        ↔ x ∈ var_id <$> defs ∨ ∃ w, Bind w ∈ pre ++ [a] ∧ var_id w = x) →
  (∀ v, a = Use v → undefined_after defs pre v →
        var_id v ∈ var_id <$> ffi_api.undefined st) →
  use_def_inv defs (pre ++ [a]) st'.
Proof.
  intros (Hdef & Hsound & Hcomplete & Hnodup & Horder) Hsame Hdef' Huse.
  unfold use_def_inv. rewrite Hsame. split_and!.
  - exact Hdef'.
  - intros v Hv. apply Hsound in Hv as [k Hk]. exists k.
    apply undefined_use_snoc. by left.
  - intros k v [Hk|(-> & -> & Hafter)]%undefined_use_snoc.
    + by eapply Hcomplete.
    + by apply Huse.
  - done.
  - intros i j u v Hij Hi Hj.
    destruct (Horder i j u v Hij Hi Hj) as (k & Hk & Hfirst).
    exists k. split; [apply undefined_use_snoc; by left|].
    intros k' w [Hk'|(-> & _ & _)]%undefined_use_snoc Heq.
    + by eapply Hfirst.
    + destruct Hk as [Hk _]. by eapply lookup_lt_Some.
Qed.

(** The step that reports a variable. *)
Lemma use_def_inv_report pre st x :
  use_def_inv defs pre st →
  var_id x ∉ ffi_api.defined st →
  var_id x ∉ var_id <$> ffi_api.undefined st →
  use_def_inv defs (pre ++ [Use x])
    (ffi_api.mkUseDef (ffi_api.defined st) (ffi_api.undefined st ++ [x])).
Proof.
  intros Hinv Hundef Hfresh.
  pose proof (proj2 (undefined_after_defined pre st x Hinv) Hundef) as Hafter.
  destruct Hinv as (Hdef & Hsound & Hcomplete & Hnodup & Horder).
  assert (Hhere : undefined_use defs (pre ++ [Use x]) (length pre) x).
  { apply undefined_use_snoc. by right. }
  assert (Hnew : ∀ k' w, undefined_use defs (pre ++ [Use x]) k' w →
                         var_id w = var_id x → k' = length pre).
  { intros k' w [Hk'|(-> & _ & _)]%undefined_use_snoc Heq; [|done].
    apply Hcomplete in Hk'. rewrite Heq in Hk'. done. }
  unfold use_def_inv. cbn [ffi_api.defined ffi_api.undefined]. split_and!.
  - intros y. rewrite Hdef. split.
    + intros [Hy|(w & Hw & Heq)]; [by left|]. right. exists w.
      split; [|done]. apply elem_of_app. by left.
    + intros [Hy|(w & Hw & Heq)]; [by left|].
      apply elem_of_app in Hw as [Hw|Hw%list_elem_of_singleton]; [|done].
      right. by exists w.
  - intros v [Hv|Hv%list_elem_of_singleton]%elem_of_app.
    + apply Hsound in Hv as [k Hk]. exists k.
      apply undefined_use_snoc. by left.
    + subst v. by exists (length pre).
  - intros k v [Hk|(-> & [= ->] & _)]%undefined_use_snoc.
    + rewrite fmap_app. apply elem_of_app. left. by eapply Hcomplete.
    + rewrite fmap_app. apply elem_of_app. right. by left.
  - rewrite fmap_app. apply NoDup_app. split_and!; [done| |].
    + intros y Hy ->%list_elem_of_singleton. done.
    + apply NoDup_singleton.
  - intros i j u v Hij Hi Hj.
    apply lookup_snoc_Some in Hj as [[Hjlt Hj]|[-> <-]].
    + rewrite lookup_app_l in Hi by lia.
      destruct (Horder i j u v Hij Hi Hj) as (k & Hk & Hfirst).
      exists k. split; [apply undefined_use_snoc; by left|].
      intros k' w [Hk'|(-> & _ & _)]%undefined_use_snoc Heq.
      * by eapply Hfirst.
      * destruct Hk as [Hk _]. by eapply lookup_lt_Some.
    + rewrite lookup_app_l in Hi by lia.
      destruct (Hsound u) as [k Hk]; [by eapply list_elem_of_lookup_2|].
      exists k. split; [apply undefined_use_snoc; by left|].
      intros k' w Hk' Heq. rewrite (Hnew k' w Hk' Heq).
      destruct Hk as [Hk _]. by eapply lookup_lt_Some.
Qed.

Lemma use_def_inv_step pre st v :
  use_def_inv defs pre st →
  use_def_inv defs (pre ++ [action v]) (ffi_api.use_def_visit st v).
Proof.
  intros Hinv. unfold ffi_api.use_def_visit.
  destruct (action v) as [w|x|b idx|b idx].
  - apply (use_def_inv_keep pre st); [done|done| |done].
    intros y. cbn [ffi_api.defined]. destruct Hinv as (Hdef & _).
    rewrite elem_of_union, elem_of_singleton, Hdef. split.
    + intros [->|[Hy|(w' & Hw' & Heq)]].
      * right. exists w. split; [|done]. apply elem_of_app. right. by left.
      * by left.
      * right. exists w'. split; [|done]. apply elem_of_app. by left.
    + intros [Hy|(w' & Hw' & Heq)]; [right; by left|].
      apply elem_of_app in Hw' as [Hw'|[= ->]%list_elem_of_singleton].
      * right. right. by exists w'.
      * by left.
  - destruct (decide (var_id x ∈ ffi_api.defined st)) as [Hdefd|Hundef].
    { apply (use_def_inv_keep pre st); [done|done| |].
      - intros y. destruct Hinv as (Hdef & _). rewrite Hdef. split.
        + intros [Hy|(w & Hw & Heq)]; [by left|]. right. exists w.
          split; [|done]. apply elem_of_app. by left.
        + intros [Hy|(w & Hw & Heq)]; [by left|].
          apply elem_of_app in Hw as [Hw|Hw%list_elem_of_singleton]; [|done].
          right. by exists w.
      - intros v' [= <-] Hafter.
        by apply (undefined_after_defined pre st x Hinv) in Hafter. }
    destruct (decide (var_id x ∈ var_id <$> ffi_api.undefined st))
      as [Hseen|Hfresh].
    { apply (use_def_inv_keep pre st); [done|done| |].
      - intros y. destruct Hinv as (Hdef & _). rewrite Hdef. split.
        + intros [Hy|(w & Hw & Heq)]; [by left|]. right. exists w.
          split; [|done]. apply elem_of_app. by left.
        + intros [Hy|(w & Hw & Heq)]; [by left|].
          apply elem_of_app in Hw as [Hw|Hw%list_elem_of_singleton]; [|done].
          right. by exists w.
      - by intros v' [= <-] _. }
    by apply use_def_inv_report.
  - apply (use_def_inv_keep pre st); [done|done| |done].
    intros y. destruct Hinv as (Hdef & _). rewrite Hdef. split.
    + intros [Hy|(w & Hw & Heq)]; [by left|]. right. exists w.
      split; [|done]. apply elem_of_app. by left.
    + intros [Hy|(w & Hw & Heq)]; [by left|].
      apply elem_of_app in Hw as [Hw|Hw%list_elem_of_singleton]; [|done].
      right. by exists w.
  - apply (use_def_inv_keep pre st); [done|done| |done].
    intros y. destruct Hinv as (Hdef & _). rewrite Hdef. split.
    + intros [Hy|(w & Hw & Heq)]; [by left|]. right. exists w.
      split; [|done]. apply elem_of_app. by left.
    + intros [Hy|(w & Hw & Heq)]; [by left|].
      apply elem_of_app in Hw as [Hw|Hw%list_elem_of_singleton]; [|done].
      right. by exists w.
Qed.

Lemma use_def_inv_walk (vs : list Visit) :
  use_def_inv defs (action <$> vs)
    (foldl ffi_api.use_def_visit
       (ffi_api.mkUseDef (list_to_set (var_id <$> defs)) []) vs).
Proof.
  induction vs as [|v vs IH] using rev_ind.
  - apply use_def_inv_init.
  - rewrite foldl_snoc, fmap_app. by apply use_def_inv_step.
Qed.

End UseDef.

Lemma or_empty_default {A} (defs : option (list A)) :
  or_empty defs = default [] defs.
Proof. by destruct defs as [[|x l]|]. Qed.



(** ** Region analysis *)

Section Regions.

Import ffi_api.

Lemma range_covers_refl r : range_covers r r.
Proof. unfold range_covers. lia. Qed.

Lemma range_covers_trans a b c :
  range_covers a b → range_covers b c → range_covers a c.
Proof. unfold range_covers. lia. Qed.

Lemma range_hull_covers_l r s : range_covers (range_hull r s) r.
Proof. unfold range_covers, range_hull. simpl. lia. Qed.

Lemma range_hull_covers_r r s : range_covers (range_hull r s) s.
Proof. unfold range_covers, range_hull. simpl. lia. Qed.

Lemma region_covers_refl rs : region_covers rs rs.
Proof. induction rs; simpl; auto using range_covers_refl. Qed.

Lemma region_covers_trans a b c :
  region_covers a b → region_covers b c → region_covers a c.
Proof.
  revert a b. induction c as [|z c IH]; intros a b Hab Hbc; [done|].
  destruct b as [|y b]; [done|]. destruct a as [|x a]; [done|].
  simpl in *. destruct Hab, Hbc. split; [by eapply range_covers_trans|eauto].
Qed.

Lemma region_hull_covers_l r s : region_covers (region_hull r s) r.
Proof.
  revert s. induction r as [|x r IH]; intros s; [done|].
  destruct s as [|y s]; simpl.
  - split; [apply range_covers_refl|apply region_covers_refl].
  - split; [apply range_hull_covers_l|apply IH].
Qed.

Lemma region_hull_covers_r r s : region_covers (region_hull r s) s.
Proof.
  revert r. induction s as [|y s IH]; intros r; [done|].
  destruct r as [|x r]; simpl.
  - split; [apply range_covers_refl|apply region_covers_refl].
  - split; [apply range_hull_covers_r|apply IH].
Qed.

(** *** What recording one access does to a list *)

Lemma buffer_same_as_iff a b :
  buffer_same_as a b = true ↔ buffer_id a = buffer_id b.
Proof. apply Pos.eqb_eq. Qed.

Lemma update_region_buffers l b rs :
  region_buffer <$> update_region l b rs
  = (region_buffer <$> l)
    ++ (if decide (buffer_id b ∈ region_id <$> l) then [] else [b]).
Proof.
  induction l as [|x l IH].
  - destruct (decide (buffer_id b ∈ region_id <$> [])) as [Hin|_]; [|done].
    by apply elem_of_nil in Hin.
  - cbn [update_region].
    destruct (buffer_same_as (region_buffer x) b) eqn:Hsame.
    + apply buffer_same_as_iff in Hsame.
      destruct (decide (buffer_id b ∈ region_id <$> x :: l)) as [_|Hnotin].
      * by rewrite app_nil_r.
      * exfalso. apply Hnotin. rewrite fmap_cons. unfold region_id at 1.
        rewrite Hsame. by left.
    + rewrite !fmap_cons, IH. cbn [app]. f_equal. f_equal.
      assert (buffer_id (region_buffer x) ≠ buffer_id b) as Hne.
      { intros Heq%buffer_same_as_iff. congruence. }
      destruct (decide (buffer_id b ∈ region_id <$> l)) as [Hin|Hnotin];
        destruct (decide (buffer_id b ∈ region_id x :: (region_id <$> l)))
          as [Hin'|Hnotin']; try done.
      * exfalso. apply Hnotin'. by right.
      * exfalso. apply elem_of_cons in Hin' as [Heq|Hin']; [|done].
        by apply Hne.
Qed.

Lemma update_region_ids l b rs :
  region_id <$> update_region l b rs
  = (region_id <$> l)
    ++ (if decide (buffer_id b ∈ region_id <$> l) then [] else [buffer_id b]).
Proof.
  assert (Hid : ∀ k : list BufferRegion,
             region_id <$> k = buffer_id <$> (region_buffer <$> k)).
  { intros k. by rewrite <- list_fmap_compose. }
  rewrite !Hid, update_region_buffers, fmap_app. f_equal.
  rewrite <- !Hid. by destruct (decide _).
Qed.

Lemma update_region_grows l b rs r :
  r ∈ l →
  ∃ r', r' ∈ update_region l b rs
        ∧ region_buffer r' = region_buffer r
        ∧ region_covers (region r') (region r).
Proof.
  induction l as [|x l IH]; intros Hr; [by apply elem_of_nil in Hr|].
  simpl. apply elem_of_cons in Hr as [->|Hr].
  - destruct (buffer_same_as (region_buffer x) b).
    + eexists. split; [by left|]. split; [done|apply region_hull_covers_l].
    + exists x. split; [by left|]. split; [done|apply region_covers_refl].
  - destruct (buffer_same_as (region_buffer x) b).
    + exists r. split; [by right|]. split; [done|apply region_covers_refl].
    + destruct (IH Hr) as (r' & Hr' & Hb & Hc). exists r'.
      split; [by right|done].
Qed.

Lemma update_region_records l b rs : appears_in (buffer_id b) rs (update_region l b rs).
Proof.
  unfold appears_in. induction l as [|x l IH]; simpl.
  - eexists. split; [by left|]. split; [done|apply region_covers_refl].
  - destruct (buffer_same_as (region_buffer x) b) eqn:Hsame.
    + eexists. split; [by left|]. split.
      * by apply buffer_same_as_iff in Hsame.
      * apply region_hull_covers_r.
    + destruct IH as (r & Hr & Hid & Hc). exists r. split; [by right|done].
Qed.

Lemma appears_in_update id rs l b rs' :
  appears_in id rs l → appears_in id rs (update_region l b rs').
Proof.
  intros (r & Hr & Hid & Hc).
  destruct (update_region_grows l b rs' r Hr) as (r' & Hr' & Hb & Hc').
  exists r'. split; [done|]. split.
  - unfold region_id in *. by rewrite Hb.
  - by eapply region_covers_trans.
Qed.

End Regions.

(** *** Collecting the accesses of one kind *)

Section Collect.

Import ffi_api.

Variable sel : Visit → option (Buffer * list Range).

Lemma selects_lt vs k b : selects sel vs k b → k < length vs.
Proof. intros (v & rs & Hk & _). by eapply lookup_lt_Some. Qed.

Lemma selects_snoc vs v k b :
  selects sel (vs ++ [v]) k b
  ↔ selects sel vs k b ∨ (k = length vs ∧ ∃ rs, sel v = Some (b, rs)).
Proof.
  unfold selects. split.
  - intros (v' & rs & Hk & Hsel).
    apply lookup_snoc_Some in Hk as [[_ Hk]|[-> ->]].
    + left. by exists v', rs.
    + right. split; [done|]. by exists rs.
  - intros [(v' & rs & Hk & Hsel)|(-> & rs & Hsel)].
    + exists v', rs. split; [by apply lookup_app_l_Some|done].
    + exists v, rs. split; [|done]. apply lookup_snoc_Some. by right.
Qed.

Lemma update_region_lookup l b rs i r' :
  update_region l b rs !! i = Some r' →
  (∃ r, l !! i = Some r ∧ region_buffer r' = region_buffer r)
  ∨ (i = length l ∧ (buffer_id b ∉ region_id <$> l) ∧ region_buffer r' = b).
Proof.
  intros Hi.
  assert (Hb : (region_buffer <$> update_region l b rs) !! i
               = Some (region_buffer r')) by (by rewrite list_lookup_fmap, Hi).
  rewrite update_region_buffers in Hb.
  apply lookup_app_Some in Hb as [Hb|[Hlen Hb]].
  - left. apply list_lookup_fmap_Some in Hb as (r & Hr & Hbr). by exists r.
  - right. rewrite length_fmap in *.
    destruct (decide (buffer_id b ∈ region_id <$> l)) as [|Hfresh]; [done|].
    apply list_lookup_singleton_Some in Hb as [Hz <-].
    split_and!; [lia|done|done].
Qed.

Lemma appears_in_ids id rs l : appears_in id rs l → id ∈ region_id <$> l.
Proof.
  intros (r & Hr & Hid & _). apply list_elem_of_fmap. by exists r.
Qed.

Lemma collect_inv_skip vs l v :
  sel v = None → collect_inv sel vs l → collect_inv sel (vs ++ [v]) l.
Proof.
  intros Hnone (Hnodup & Hsound & Hbound & Horder).
  assert (Hsame : ∀ k b, selects sel (vs ++ [v]) k b ↔ selects sel vs k b).
  { intros k b. rewrite selects_snoc. split; [|by left].
    intros [?|(_ & rs & Hsel)]; [done|congruence]. }
  unfold collect_inv. split_and!; [done| | |].
  - intros r Hr. destruct (Hsound r Hr) as [k Hk]. exists k. by apply Hsame.
  - intros k v' b rs Hk Hsel.
    apply lookup_snoc_Some in Hk as [[_ Hk]|[_ ->]]; [|congruence].
    by eapply Hbound.
  - intros i j r1 r2 Hij Hi Hj.
    destruct (Horder i j r1 r2 Hij Hi Hj) as (k & Hk & Hfirst).
    exists k. split; [by apply Hsame|].
    intros k' b' Hk'%Hsame. by apply (Hfirst k' b').
Qed.

Lemma collect_inv_record vs l v b rs :
  sel v = Some (b, rs) → collect_inv sel vs l →
  collect_inv sel (vs ++ [v]) (update_region l b rs).
Proof.
  intros Hsel (Hnodup & Hsound & Hbound & Horder).
  assert (Hhere : selects sel (vs ++ [v]) (length vs) b).
  { apply selects_snoc. right. split; [done|]. by exists rs. }
  assert (Hold : ∀ k b', selects sel vs k b' → selects sel (vs ++ [v]) k b').
  { intros k b' Hk. apply selects_snoc. by left. }
  unfold collect_inv. split_and!.
  - rewrite update_region_ids. apply NoDup_app. split_and!; [done| |].
    + intros id Hid. destruct (decide _) as [|Hfresh]; [apply not_elem_of_nil|].
      intros ->%list_elem_of_singleton. done.
    + destruct (decide _); [constructor|apply NoDup_singleton].
  - intros r' [i Hi]%list_elem_of_lookup.
    apply update_region_lookup in Hi as [(r & Hr & ->)|(_ & _ & ->)].
    + destruct (Hsound r) as [k Hk]; [by eapply list_elem_of_lookup_2|].
      exists k. by apply Hold.
    + by exists (length vs).
  - intros k v' b' rs' Hk Hsel'.
    apply lookup_snoc_Some in Hk as [[_ Hk]|[_ <-]].
    + apply appears_in_update. by eapply Hbound.
    + rewrite Hsel in Hsel'. injection Hsel' as <- <-.
      apply update_region_records.
  - intros i j r1' r2' Hij Hi Hj.
    apply update_region_lookup in Hi as [(r1 & Hr1 & Hb1)|(-> & _ & _)];
      apply update_region_lookup in Hj as [(r2 & Hr2 & Hb2)|(-> & Hfresh & Hb2)].
    + destruct (Horder i j r1 r2 Hij Hr1 Hr2) as (k & Hk & Hfirst).
      exists k. rewrite Hb1. split; [by apply Hold|].
      intros k' b' [Hk'|(-> & _)]%selects_snoc Hid.
      * apply (Hfirst k' b' Hk'). unfold region_id in *. by rewrite <- Hb2.
      * by eapply selects_lt.
    + destruct (Hsound r1) as [k Hk]; [by eapply list_elem_of_lookup_2|].
      exists k. rewrite Hb1. split; [by apply Hold|].
      intros k' b' [Hk'|(-> & _)]%selects_snoc Hid.
      * exfalso. apply Hfresh. destruct Hk' as (v' & rs' & Hv' & Hsel').
        apply appears_in_ids with (rs := rs').
        unfold region_id in Hid. rewrite Hb2 in Hid. rewrite <- Hid.
        by eapply Hbound.
      * by eapply selects_lt.
    + apply lookup_lt_Some in Hr2. lia.
    + lia.
Qed.

Lemma collect_inv_walk vs :
  collect_inv sel vs (foldl (record_access sel) [] vs).
Proof.
  induction vs as [|v vs IH] using rev_ind.
  - unfold collect_inv. simpl. split_and!.
    + constructor.
    + intros r Hr. by apply elem_of_nil in Hr.
    + intros k v b rs Hk. done.
    + intros i j r1 r2 _ Hi. done.
  - rewrite foldl_snoc. unfold record_access at 1.
    destruct (sel v) as [[b rs]|] eqn:Hsel.
    + by apply collect_inv_record.
    + by apply collect_inv_skip.
Qed.

End Collect.

(** *** The detector keeps three such collections *)

Section Detector.

Import ffi_api.

Variable bvm : gmap positive Buffer.

Lemma sel_kind_Some kind v b rs :
  sel_kind bvm kind v = Some (b, rs) ↔ classify bvm v = Some (kind, b, rs).
Proof.
  unfold sel_kind. destruct (classify bvm v) as [[[k b'] rs']|]; [|done].
  destruct k, kind; split; intros [= -> ->] || intros [=]; done.
Qed.

Lemma selects_access_at block kind k b :
  selects (sel_kind bvm kind) (walk_stmt [] [] block) k b
  ↔ access_at block bvm k kind b.
Proof.
  unfold selects, access_at. by setoid_rewrite sel_kind_Some.
Qed.

Lemma detector_collections vs d :
  read_regions (foldl (detector_visit bvm) d vs)
  = foldl (record_access (sel_kind bvm ReadAccess)) (read_regions d) vs
  ∧ write_regions (foldl (detector_visit bvm) d vs)
    = foldl (record_access (sel_kind bvm WriteAccess)) (write_regions d) vs
  ∧ opaque_regions (foldl (detector_visit bvm) d vs)
    = foldl (record_access (sel_kind bvm OpaqueAccess)) (opaque_regions d) vs.
Proof.
  revert d. induction vs as [|v vs IH]; intros d; [done|].
  cbn [foldl]. destruct (IH (detector_visit bvm d v)) as (-> & -> & ->).
  unfold detector_visit, record_access, sel_kind.
  by destruct (classify bvm v) as [[[[] b] rs]|].
Qed.

Lemma collect_inv_ordered block kind :
  ordered_by_first_access block bvm kind
    (foldl (record_access (sel_kind bvm kind)) [] (walk_stmt [] [] block)).
Proof.
  destruct (collect_inv_walk (sel_kind bvm kind) (walk_stmt [] [] block))
    as (Hnodup & Hsound & Hbound & Horder).
  unfold ordered_by_first_access. split_and!; [done| | |].
  - intros r Hr. destruct (Hsound r Hr) as [k Hk]. exists k.
    by apply selects_access_at.
  - intros k b (v & rs & Hk & Hc). apply appears_in_ids with (rs := rs).
    eapply Hbound; [done|]. by apply sel_kind_Some.
  - intros i j r1 r2 Hij Hi Hj.
    destruct (Horder i j r1 r2 Hij Hi Hj) as (k & Hk & Hfirst).
    exists k. split; [by apply selects_access_at|].
    intros k' b' Hk'%selects_access_at. by apply (Hfirst k' b').
Qed.

Lemma collect_bounds block kind k b :
  access_at block bvm k kind b →
  ∀ v rs, walk_stmt [] [] block !! k = Some v →
          classify bvm v = Some (kind, b, rs) →
          appears_in (buffer_id b) rs
            (foldl (record_access (sel_kind bvm kind)) [] (walk_stmt [] [] block)).
Proof.
  intros _ v rs Hk Hc.
  destruct (collect_inv_walk (sel_kind bvm kind) (walk_stmt [] [] block))
    as (_ & _ & Hbound & _).
  eapply Hbound; [done|]. by apply sel_kind_Some.
Qed.

Lemma count_as_keeps id rs l opaques :
  appears_in id rs l → appears_in id rs (count_as l opaques).
Proof.
  unfold count_as. revert l.
  induction opaques as [|o os IH]; intros l Hl; [done|].
  cbn [foldl]. by apply IH, appears_in_update.
Qed.

Lemma count_as_counts l opaques o :
  o ∈ opaques → appears_in (region_id o) (region o) (count_as l opaques).
Proof.
  unfold count_as. revert l.
  induction opaques as [|o' os IH]; intros l Ho; [by apply elem_of_nil in Ho|].
  cbn [foldl]. apply elem_of_cons in Ho as [->|Ho].
  - apply (count_as_keeps _ _ _ os), update_region_records.
  - by apply IH.
Qed.

Lemma appears_in_weaken id rs rs' l :
  region_covers rs rs' → appears_in id rs l → appears_in id rs' l.
Proof.
  intros Hc (r & Hr & Hid & Hcov). exists r. split_and!; [done|done|].
  by eapply region_covers_trans.
Qed.

End Detector.



(** ** Buffer LCA detector *)

Section CommonPrefix.

Import ffi_api.

Lemma common_prefix_l a b : common_prefix a b `prefix_of` a.
Proof.
  revert b. induction a as [|x a IH]; intros [|y b]; simpl;
    try apply prefix_nil.
  destruct (decide (x = y)); [|apply prefix_nil]. by apply prefix_cons.
Qed.

Lemma common_prefix_r a b : common_prefix a b `prefix_of` b.
Proof.
  revert b. induction a as [|x a IH]; intros [|y b]; simpl;
    try apply prefix_nil.
  destruct (decide (x = y)) as [->|]; [|apply prefix_nil]. by apply prefix_cons.
Qed.

Lemma common_prefix_max a b k :
  k `prefix_of` a → k `prefix_of` b → k `prefix_of` common_prefix a b.
Proof.
  revert a b. induction k as [|z k IH]; intros a b Ha Hb; [apply prefix_nil|].
  destruct a as [|x a]; [by apply prefix_nil_not in Ha|].
  destruct b as [|y b]; [by apply prefix_nil_not in Hb|].
  apply prefix_cons_inv_1 in Ha as Hzx. apply prefix_cons_inv_1 in Hb as Hzy.
  apply prefix_cons_inv_2 in Ha. apply prefix_cons_inv_2 in Hb. subst x y.
  simpl. rewrite decide_True by done. apply prefix_cons. by apply IH.
Qed.

(** A prefix that reaches a first occurrence contains everything before
    it. *)
Lemma prefix_through_first (k l1 l2 : list path) (q : path) :
  k `prefix_of` l1 ++ q :: l2 → q ∈ k → q ∉ l1 → (l1 ++ [q]) `prefix_of` k.
Proof.
  revert k. induction l1 as [|x l1 IH]; intros k Hk Hq Hfresh.
  - destruct k as [|y k]; [by apply elem_of_nil in Hq|].
    simpl in *. apply prefix_cons_inv_1 in Hk as ->.
    apply prefix_cons, prefix_nil.
  - destruct k as [|y k]; [by apply elem_of_nil in Hq|].
    simpl in *. apply prefix_cons_inv_1 in Hk as Hy. subst y.
    apply prefix_cons_inv_2 in Hk. apply prefix_cons. apply IH; [done| |].
    + apply elem_of_cons in Hq as [->|Hq]; [|done].
      exfalso. apply Hfresh. by left.
    + intros Hin. apply Hfresh. by right.
Qed.

End CommonPrefix.

Section LcaFold.

Import ffi_api.

Variable bm : gmap positive Buffer.

Lemma visit_access_snoc vs v k id c :
  visit_access bm (vs ++ [v]) k id c
  ↔ visit_access bm vs k id c
    ∨ (k = length vs ∧ ∃ b, accessed_buffer bm v = Some b
                            ∧ buffer_id b = id ∧ visit_chain v = c).
Proof.
  unfold visit_access. split.
  - intros (v' & b & Hk & Hacc).
    apply lookup_snoc_Some in Hk as [[_ Hk]|[-> ->]].
    + left. by exists v', b.
    + right. split; [done|]. by exists b.
  - intros [(v' & b & Hk & Hacc)|(-> & b & Hacc)].
    + exists v', b. split; [by apply lookup_app_l_Some|done].
    + exists v, b. split; [|done]. apply lookup_snoc_Some. by right.
Qed.

Lemma lca_inv_step vs m v :
  lca_inv bm vs m → lca_inv bm (vs ++ [v]) (lca_visit bm m v).
Proof.
  intros Hinv id. unfold lca_visit.
  destruct (accessed_buffer bm v) as [b|] eqn:Hacc.
  - destruct (decide (buffer_id b = id)) as [<-|Hne].
    + rewrite lookup_insert_eq. specialize (Hinv (buffer_id b)). split.
      { exists (length vs), (visit_chain v). apply visit_access_snoc.
        right. split; [done|]. by exists b. }
      destruct (m !! buffer_id b) as [r|].
      * destruct Hinv as (_ & Hpre & Hmax). split.
        -- intros k c [Hk|(_ & b' & Hb' & _ & <-)]%visit_access_snoc.
           ++ etransitivity; [apply common_prefix_l|]. by eapply Hpre.
           ++ apply common_prefix_r.
        -- intros r' Hr'. apply common_prefix_max.
           ++ apply Hmax. intros k c Hk. apply (Hr' k).
              apply visit_access_snoc. by left.
           ++ apply (Hr' (length vs)). apply visit_access_snoc.
              right. split; [done|]. by exists b.
      * split.
        -- intros k c [Hk|(_ & b' & Hb' & _ & <-)]%visit_access_snoc.
           ++ by apply Hinv in Hk.
           ++ done.
        -- intros r' Hr'. apply (Hr' (length vs)). apply visit_access_snoc.
           right. split; [done|]. by exists b.
    + rewrite lookup_insert_ne by done. specialize (Hinv id).
      assert (Hsame : ∀ k c, visit_access bm (vs ++ [v]) k id c
                             ↔ visit_access bm vs k id c).
      { intros k c. rewrite visit_access_snoc. split; [|by left].
        intros [?|(_ & b' & Hb' & Hid & _)]; [done|]. congruence. }
      destruct (m !! id) as [r|].
      * destruct Hinv as ((k & c & Hk) & Hpre & Hmax). split.
        -- exists k, c. by apply Hsame.
        -- split.
           ++ intros k' c' Hk'%Hsame. by eapply Hpre.
           ++ intros r' Hr'. apply Hmax. intros k' c' Hk'%Hsame.
              by eapply Hr'.
      * intros k c Hk%Hsame. by apply Hinv in Hk.
  - specialize (Hinv id).
    assert (Hsame : ∀ k c, visit_access bm (vs ++ [v]) k id c
                           ↔ visit_access bm vs k id c).
    { intros k c. rewrite visit_access_snoc. split; [|by left].
      intros [?|(_ & b' & Hb' & _)]; [done|]. congruence. }
    destruct (m !! id) as [r|].
    + destruct Hinv as ((k & c & Hk) & Hpre & Hmax). split.
      * exists k, c. by apply Hsame.
      * split.
        -- intros k' c' Hk'%Hsame. by eapply Hpre.
        -- intros r' Hr'. apply Hmax. intros k' c' Hk'%Hsame. by eapply Hr'.
    + intros k c Hk%Hsame. by apply Hinv in Hk.
Qed.

Lemma lca_inv_walk vs : lca_inv bm vs (foldl (lca_visit bm) ∅ vs).
Proof.
  induction vs as [|v vs IH] using rev_ind.
  - intros id. cbn [foldl]. rewrite lookup_empty.
    intros k c (v & b & Hk & _). done.
  - rewrite foldl_snoc. by apply lca_inv_step.
Qed.

End LcaFold.

(** *** The ancestor chains are root paths of a tree *)

Section Chains.

Lemma walk_expr_chain chain e v : v ∈ walk_expr chain e → ancestors v = chain.
Proof.
  revert v.
  induction e as [x|n|op a b IHa IHb|a IHa|c t f IHc IHt IHf|x y b IHy IHb
                  |buf idx IH|op args IH] using PrimExpr_nested_ind;
    intros v; simpl.
  - by intros ->%list_elem_of_singleton.
  - by intros ?%elem_of_nil.
  - intros [?|?]%elem_of_app; auto.
  - auto.
  - intros [?|[?|?]%elem_of_app]%elem_of_app; auto.
  - intros [?|[->|?]%elem_of_cons]%elem_of_app; auto.
  - intros [->|Hv]%elem_of_cons; [done|].
    apply elem_of_flat_map in Hv as (x & Hx & Hv).
    rewrite Forall_forall in IH. by eapply IH.
  - intros Hv. apply elem_of_flat_map in Hv as (x & Hx & Hv).
    rewrite Forall_forall in IH. by eapply IH.
Qed.

Lemma walk_exprs_chain chain l v :
  v ∈ flat_map (walk_expr chain) l → ancestors v = chain.
Proof.
  intros (x & _ & Hv)%elem_of_flat_map. by eapply walk_expr_chain.
Qed.

Lemma walk_iter_vars_chain chain ivs v :
  v ∈ flat_map (walk_iter_var chain) ivs → ancestors v = chain.
Proof.
  intros (iv & _ & Hv)%elem_of_flat_map. unfold walk_iter_var in Hv.
  apply elem_of_app in Hv as [Hv|[Hv|Hv%list_elem_of_singleton]%elem_of_app];
    [by eapply walk_expr_chain|by eapply walk_expr_chain|by subst v].
Qed.

Lemma elem_of_flat_mapi {A B} (f : nat → A → list B) (i : nat) (l : list A)
    (y : B) :
  y ∈ flat_mapi f i l ↔ ∃ j x, l !! j = Some x ∧ y ∈ f (i + j) x.
Proof.
  revert i. induction l as [|a l IH]; intros i; simpl.
  - split; [by intros ?%elem_of_nil|]. by intros (j & x & Hj & _).
  - rewrite elem_of_app, IH. split.
    + intros [Hy|(j & x & Hj & Hy)].
      * exists 0, a. by rewrite Nat.add_0_r.
      * exists (S j), x. by rewrite Nat.add_succ_r.
    + intros ([|j] & x & Hj & Hy); simpl in Hj.
      * injection Hj as ->. left. by rewrite Nat.add_0_r in Hy.
      * right. exists j, x. by rewrite Nat.add_succ_r in Hy.
Qed.

Lemma walk_descent s :
  ∀ here chain v,
    v ∈ walk_stmt here chain s →
    ∃ e, ancestors v = chain ++ e ∧ descent here s e.
Proof.
  assert (Hstop : ∀ here chain s' v,
            ancestors v = chain →
            ∃ e, ancestors v = chain ++ e ∧ descent here s' e).
  { intros here chain s' v ->. exists []. rewrite app_nil_r.
    split; [done|constructor]. }
  induction s as [ss IH|c t e IHt IHe|x lo ext k body IH|buf body IH
                  |buf x idx|x y body IH|e|n ivs i body IHi IHb]
    using Stmt_nested_ind; intros here chain v; simpl.
  - intros (j & x & Hj & Hv)%elem_of_flat_mapi. simpl in Hv.
    rewrite Forall_forall in IH.
    destruct (IH x (list_elem_of_lookup_2 _ _ _ Hj) _ _ _ Hv)
      as (e & He & Hd).
    exists e. split; [done|]. by eapply descent_seq.
  - intros [Hv|[Hv|Hv]%elem_of_app]%elem_of_app.
    + apply Hstop. by eapply walk_expr_chain.
    + destruct (IHt _ _ _ Hv) as (e' & He & Hd). exists e'.
      split; [done|]. by apply descent_then.
    + destruct e as [el|]; [|by apply elem_of_nil in Hv].
      destruct (IHe _ _ _ Hv) as (e' & He & Hd). exists e'.
      split; [done|]. by apply descent_else.
  - intros [Hv|[Hv|[->|Hv]%elem_of_cons]%elem_of_app]%elem_of_app.
    + apply Hstop. by eapply walk_expr_chain.
    + apply Hstop. by eapply walk_expr_chain.
    + by apply Hstop.
    + destruct (IH _ _ _ Hv) as (e' & He & Hd).
      exists (LoopScope here x lo ext k :: e').
      split; [by rewrite He, <- app_assoc|]. by apply descent_for.
  - intros Hv. destruct (IH _ _ _ Hv) as (e' & He & Hd). exists e'.
    split; [done|]. by apply descent_alloc.
  - intros [->|[Hv|Hv]%elem_of_app]%elem_of_cons.
    + by apply Hstop.
    + apply Hstop. by eapply walk_expr_chain.
    + apply Hstop. by eapply walk_exprs_chain.
  - intros [Hv|[->|Hv]%elem_of_cons]%elem_of_app.
    + apply Hstop. by eapply walk_expr_chain.
    + by apply Hstop.
    + destruct (IH _ _ _ Hv) as (e' & He & Hd). exists e'.
      split; [done|]. by apply descent_let.
  - intros Hv. apply Hstop. by eapply walk_expr_chain.
  - intros [Hv|[Hv|Hv]%elem_of_app]%elem_of_app.
    + apply Hstop. by eapply walk_iter_vars_chain.
    + destruct i as [i'|]; [|by apply elem_of_nil in Hv].
      destruct (IHi _ _ _ Hv) as (e' & He & Hd).
      exists (BlockScope here n ivs :: e').
      split; [by rewrite He, <- app_assoc|]. by apply descent_init.
    + destruct (IHb _ _ _ Hv) as (e' & He & Hd).
      exists (BlockScope here n ivs :: e').
      split; [by rewrite He, <- app_assoc|]. by apply descent_body.
Qed.

Lemma descent_below here s e :
  descent here s e → Forall (λ n, here `prefix_of` scope_pos n) e.
Proof.
  assert (Hweak : ∀ (p : path) i (l : list ScopeNode),
            Forall (λ n, (p ++ [i]) `prefix_of` scope_pos n) l →
            Forall (λ n, p `prefix_of` scope_pos n) l).
  { intros p i l Hl. eapply Forall_impl; [exact Hl|]. intros n Hn.
    etransitivity; [|exact Hn]. by apply prefix_app_r. }
  induction 1 as [here s|here ss i x e Hi Hd IH|here c t el e Hd IH
                  |here c t el e Hd IH|here v lo ext k b e Hd IH
                  |here buf b e Hd IH|here v x b e Hd IH
                  |here n ivs i b e Hd IH|here n ivs i b e Hd IH].
  - apply List.Forall_nil.
  - exact (Hweak _ _ _ IH).
  - exact (Hweak _ _ _ IH).
  - exact (Hweak _ _ _ IH).
  - apply List.Forall_cons; [done|exact (Hweak _ _ _ IH)].
  - exact (Hweak _ _ _ IH).
  - exact (Hweak _ _ _ IH).
  - apply List.Forall_cons; [done|exact (Hweak _ _ _ IH)].
  - apply List.Forall_cons; [done|exact (Hweak _ _ _ IH)].
Qed.

Lemma children_apart (here q : path) (i j : nat) :
  (here ++ [i]) `prefix_of` q → (here ++ [j]) `prefix_of` q → i = j.
Proof.
  intros [k1 ->] [k2 Heq]. rewrite <- !app_assoc in Heq.
  apply app_inv_head in Heq. by injection Heq.
Qed.

Lemma descent_pos_below here s e q :
  descent here s e → q ∈ scope_pos <$> e → here `prefix_of` q.
Proof.
  intros Hd (n & -> & Hn)%list_elem_of_fmap.
  apply descent_below in Hd. rewrite Forall_forall in Hd. by apply Hd.
Qed.

Lemma descent_ascending here s e :
  descent here s e →
  ∀ i j q p,
    i ≤ j → (scope_pos <$> e) !! i = Some q → (scope_pos <$> e) !! j = Some p →
    q `prefix_of` p.
Proof.
  assert (Hcons : ∀ (at_ : path) (n : ScopeNode) c s' (e : list ScopeNode),
            scope_pos n = at_ →
            descent (at_ ++ [c]) s' e →
            (∀ i j q p, i ≤ j → (scope_pos <$> e) !! i = Some q →
                        (scope_pos <$> e) !! j = Some p → q `prefix_of` p) →
            ∀ i j q p, i ≤ j → (scope_pos <$> n :: e) !! i = Some q →
                       (scope_pos <$> n :: e) !! j = Some p → q `prefix_of` p).
  { clear. intros here n c s e Hn Hd IH i j q p Hij Hi Hj.
    rewrite fmap_cons in *. destruct i as [|i]; simpl in Hi.
    - injection Hi as <-. rewrite Hn. destruct j as [|j]; simpl in Hj.
      + injection Hj as <-. by rewrite Hn.
      + transitivity (here ++ [c]); [by apply prefix_app_r|].
        eapply descent_pos_below; [done|]. by eapply list_elem_of_lookup_2.
    - destruct j as [|j]; [lia|]. simpl in Hj. eapply (IH i j); [lia|done..]. }
  induction 1 as [here s|here ss i x e Hi Hd IH|here c t el e Hd IH
                  |here c t el e Hd IH|here v lo ext k b e Hd IH
                  |here buf b e Hd IH|here v x b e Hd IH
                  |here n ivs i b e Hd IH|here n ivs i b e Hd IH];
    try exact IH.
  - intros i j q p _ Hi. done.
  - by eapply Hcons.
  - by eapply Hcons.
  - by eapply Hcons.
Qed.

Lemma descent_coherent here s e1 e2 q :
  descent here s e1 → descent here s e2 →
  q ∈ scope_pos <$> e1 → q ∈ scope_pos <$> e2 →
  q ∈ ffi_api.common_prefix (scope_pos <$> e1) (scope_pos <$> e2).
Proof.
  intros H1. revert e2.
  induction H1 as [here s|here ss i x e Hi Hd IH|here c t el e Hd IH
                   |here c t el e Hd IH|here v lo ext k b e Hd IH
                   |here buf b e Hd IH|here v x b e Hd IH
                   |here n ivs i b e Hd IH|here n ivs i b e Hd IH];
    intros e2 H2 Hq1 Hq2.
  - by apply elem_of_nil in Hq1.
  - inversion H2 as [| ? ? j y ? Hj Hd2| | | | | | |]; subst.
    + by apply elem_of_nil in Hq2.
    + assert (i = j) as <-.
      { eapply children_apart; by eapply descent_pos_below. }
      assert (x = y) as <- by congruence. by apply IH.
  - inversion H2 as [| |? ? ? ? ? Hd2|? ? ? ? ? Hd2| | | | |]; subst.
    + by apply elem_of_nil in Hq2.
    + by apply IH.
    + exfalso. assert (0 = 1); [|done].
      eapply children_apart; by eapply descent_pos_below.
  - inversion H2 as [| |? ? ? ? ? Hd2|? ? ? ? ? Hd2| | | | |]; subst.
    + by apply elem_of_nil in Hq2.
    + exfalso. assert (1 = 0); [|done].
      eapply children_apart; by eapply descent_pos_below.
    + by apply IH.
  - inversion H2 as [| | | |? ? ? ? ? ? ? Hd2| | | |]; subst.
    + by apply elem_of_nil in Hq2.
    + rewrite !fmap_cons in *. simpl. rewrite decide_True by done.
      apply elem_of_cons in Hq1 as [->|Hq1]; [by left|].
      apply elem_of_cons in Hq2 as [->|Hq2]; [by left|].
      right. by apply IH.
  - inversion H2 as [| | | | |? ? ? ? Hd2| | |]; subst.
    + by apply elem_of_nil in Hq2.
    + by apply IH.
  - inversion H2 as [| | | | | |? ? ? ? ? Hd2| |]; subst.
    + by apply elem_of_nil in Hq2.
    + by apply IH.
  - inversion H2 as [| | | | | | |? ? ? ? ? ? Hd2|? ? ? ? ? ? Hd2]; subst.
    + by apply elem_of_nil in Hq2.
    + rewrite !fmap_cons in *. simpl. rewrite decide_True by done.
      apply elem_of_cons in Hq1 as [->|Hq1]; [by left|].
      apply elem_of_cons in Hq2 as [->|Hq2]; [by left|].
      right. by apply IH.
    + rewrite !fmap_cons in *. simpl. rewrite decide_True by done.
      apply elem_of_cons in Hq1 as [->|Hq1]; [by left|].
      apply elem_of_cons in Hq2 as [->|Hq2]; [by left|].
      exfalso. assert (0 = 1); [|done].
      eapply children_apart; by eapply descent_pos_below.
  - inversion H2 as [| | | | | | |? ? ? ? ? ? Hd2|? ? ? ? ? ? Hd2]; subst.
    + by apply elem_of_nil in Hq2.
    + rewrite !fmap_cons in *. simpl. rewrite decide_True by done.
      apply elem_of_cons in Hq1 as [->|Hq1]; [by left|].
      apply elem_of_cons in Hq2 as [->|Hq2]; [by left|].
      exfalso. assert (1 = 0); [|done].
      eapply children_apart; by eapply descent_pos_below.
    + rewrite !fmap_cons in *. simpl. rewrite decide_True by done.
      apply elem_of_cons in Hq1 as [->|Hq1]; [by left|].
      apply elem_of_cons in Hq2 as [->|Hq2]; [by left|].
      right. by apply IH.
Qed.

End Chains.

Lemma stmt_at_app (p q : path) (s : Stmt) :
  stmt_at (p ++ q) s
  = match stmt_at p s with Some s' => stmt_at q s' | None => None end.
Proof.
  revert s. induction p as [|i p IH]; intros s; [done|].
  destruct s as [ss|c t e|v lo ext k b|buf b|buf x idx|v x b|e|n ivs init b];
    simpl; try done.
  - destruct (ss !! i); [apply IH|done].
  - destruct i as [|[|i]]; [apply IH|destruct e; [apply IH|done]|done].
  - destruct i; [apply IH|done].
  - destruct i; [apply IH|done].
  - destruct i; [apply IH|done].
  - destruct i as [|[|i]]; [destruct init; [apply IH|done]|apply IH|done].
Qed.

Lemma descent_scopes (root : Stmt) here s e :
  descent here s e →
  stmt_at here root = Some s →
  ∀ n, n ∈ e →
       ∃ s', stmt_at (scope_pos n) root = Some s' ∧ is_loop_or_block s'.
Proof.
  assert (Hchild : ∀ (p : path) i s1 s2,
            stmt_at p root = Some s1 → stmt_at [i] s1 = Some s2 →
            stmt_at (p ++ [i]) root = Some s2).
  { intros p i s1 s2 Hp Hi. by rewrite stmt_at_app, Hp. }
  induction 1 as [here s|here ss i x e Hi Hd IH|here c t el e Hd IH
                  |here c t el e Hd IH|here v lo ext k b e Hd IH
                  |here buf b e Hd IH|here v x b e Hd IH
                  |here n ivs i b e Hd IH|here n ivs i b e Hd IH];
    intros Hroot m Hm.
  - by apply elem_of_nil in Hm.
  - apply IH; [|done]. eapply Hchild; [done|]. simpl. by rewrite Hi.
  - apply IH; [|done]. by eapply Hchild.
  - apply IH; [|done]. by eapply Hchild.
  - apply elem_of_cons in Hm as [->|Hm].
    + eexists. by split.
    + apply IH; [|done]. by eapply Hchild.
  - apply IH; [|done]. by eapply Hchild.
  - apply IH; [|done]. by eapply Hchild.
  - apply elem_of_cons in Hm as [->|Hm].
    + eexists. by split.
    + apply IH; [|done]. by eapply Hchild.
  - apply elem_of_cons in Hm as [->|Hm].
    + eexists. by split.
    + apply IH; [|done]. by eapply Hchild.
Qed.

(** *** The detector returns the deepest common ancestor *)

Section Lca.

Variable func : PrimFunc.

Lemma access_descent k id chain :
  buffer_access_at func k id chain →
  ∃ e, chain = scope_pos <$> e ∧ descent [] (func_body func) e.
Proof.
  intros (v & b & Hk & _ & _ & <-).
  apply list_elem_of_lookup_2 in Hk.
  destruct (walk_descent _ _ _ _ Hk) as (e & He & Hd). simpl in He.
  exists e. split; [|done]. unfold ffi_api.visit_chain. by rewrite He.
Qed.

Lemma lca_chains_spec id :
  match ffi_api.lca_chains func !! id with
  | None => ¬ accessed func id
  | Some r =>
      accessed func id
      ∧ (∀ k c, buffer_access_at func k id c → r `prefix_of` c)
      ∧ (∀ r', (∀ k c, buffer_access_at func k id c → r' `prefix_of` c) →
               r' `prefix_of` r)
  end.
Proof.
  pose proof (lca_inv_walk (buffer_map func)
                (walk_stmt [] [] (func_body func)) id) as Hinv.
  unfold ffi_api.lca_chains. destruct (foldl _ _ _ !! id) as [r|].
  - exact Hinv.
  - intros (k & c & Hk). by apply (Hinv k c).
Qed.

Lemma common_ancestor_in_prefix id (r : list path) (q : path) :
  ffi_api.lca_chains func !! id = Some r →
  common_ancestor func id q → q ∈ r.
Proof.
  intros Hr Hq. pose proof (lca_chains_spec id) as Hspec. rewrite Hr in Hspec.
  destruct Hspec as ((k1 & c1 & H1) & Hpre & Hmax).
  pose proof (Hq _ _ H1) as Hq1.
  apply list_elem_of_split_l in Hq1 as (l1 & l2 & Hc1 & Hfresh).
  apply elem_of_prefix with (l1 := l1 ++ [q]).
  { apply elem_of_app. right. by left. }
  apply Hmax. intros k c Hk.
  destruct (access_descent _ _ _ H1) as (e1 & He1 & Hd1).
  destruct (access_descent _ _ _ Hk) as (e & He & Hd).
  assert (Hqc : q ∈ ffi_api.common_prefix c1 c).
  { rewrite He1, He. apply (descent_coherent [] (func_body func)); try done.
    - rewrite <- He1, Hc1. apply elem_of_app. right. by left.
    - rewrite <- He. by eapply Hq. }
  transitivity (ffi_api.common_prefix c1 c); [|apply common_prefix_r].
  apply (prefix_through_first _ l1 l2); [|done|done].
  rewrite <- Hc1. apply common_prefix_l.
Qed.

Lemma lca_is_deepest id (r : list path) (p q : path) :
  ffi_api.lca_chains func !! id = Some r →
  last r = Some p → q ∈ r → q `prefix_of` p.
Proof.
  intros Hr Hp Hq. pose proof (lca_chains_spec id) as Hspec.
  rewrite Hr in Hspec. destruct Hspec as ((k1 & c1 & H1) & Hpre & _).
  destruct (access_descent _ _ _ H1) as (e1 & He1 & Hd1).
  apply list_elem_of_lookup in Hq as [i Hi].
  rewrite last_lookup in Hp.
  pose proof (lookup_lt_Some _ _ _ Hi) as Hlt.
  apply (descent_ascending _ _ _ Hd1 i (pred (length r))); [lia| |].
  - rewrite <- He1. eapply prefix_lookup_Some; [done|]. by eapply Hpre.
  - rewrite <- He1. eapply prefix_lookup_Some; [done|]. by eapply Hpre.
Qed.

Lemma detect_lookup id :
  detect_buffer_access_lca func !! id = last <$> ffi_api.lca_chains func !! id.
Proof.
  unfold detect_buffer_access_lca, ffi_api.detect_buffer_access_lca.
  apply lookup_fmap.
Qed.

Lemma detect_not_accessed id :
  detect_buffer_access_lca func !! id = None ↔ ¬ accessed func id.
Proof.
  rewrite detect_lookup. pose proof (lca_chains_spec id) as Hspec.
  destruct (ffi_api.lca_chains func !! id) as [r|]; simpl.
  - split; [done|]. intros Hno. by destruct Hspec as (Hacc & _).
  - done.
Qed.

Lemma detect_deepest id (p : path) :
  detect_buffer_access_lca func !! id = Some (Some p) →
  common_ancestor func id p
  ∧ (∀ q, common_ancestor func id q → q `prefix_of` p)
  ∧ ∃ s, stmt_at p (func_body func) = Some s ∧ is_loop_or_block s.
Proof.
  rewrite detect_lookup. pose proof (lca_chains_spec id) as Hspec.
  destruct (ffi_api.lca_chains func !! id) as [r|] eqn:Hr; [|done].
  simpl. intros [= Hp]. destruct Hspec as ((k1 & c1 & H1) & Hpre & Hmax).
  assert (Hcommon : common_ancestor func id p).
  { intros k c Hk. apply elem_of_prefix with (l1 := r); [|by eapply Hpre].
    by apply last_Some_elem_of. }
  split_and!; [done| |].
  - intros q Hq. eapply lca_is_deepest; [done..|].
    by eapply common_ancestor_in_prefix.
  - destruct (access_descent _ _ _ H1) as (e1 & He1 & Hd1).
    pose proof (Hcommon _ _ H1) as Hin. rewrite He1 in Hin.
    apply list_elem_of_fmap in Hin as (n & -> & Hn).
    by eapply (descent_scopes (func_body func)).
Qed.

Lemma detect_no_common_ancestor id :
  detect_buffer_access_lca func !! id = Some None →
  ∀ q, ¬ common_ancestor func id q.
Proof.
  rewrite detect_lookup.
  destruct (ffi_api.lca_chains func !! id) as [r|] eqn:Hr; [|done].
  simpl. intros [= Hnone%last_None] q Hq. subst r.
  eapply elem_of_nil, common_ancestor_in_prefix; done.
Qed.

End Lca.

Lemma chain_last_deepest func k id (chain : list path) (p q : path) :
  buffer_access_at func k id chain →
  last chain = Some p → q ∈ chain → q `prefix_of` p.
Proof.
  intros Hk Hp [i Hi]%list_elem_of_lookup.
  destruct (access_descent _ _ _ _ Hk) as (e & -> & Hd).
  rewrite last_lookup in Hp. pose proof (lookup_lt_Some _ _ _ Hi).
  apply (descent_ascending _ _ _ Hd i (pred (length (scope_pos <$> e))));
    [lia|done|done].
Qed.

Lemma detect_single_scope func id (p : path) :
  accessed func id →
  (∀ k chain, buffer_access_at func k id chain → last chain = Some p) →
  detect_buffer_access_lca func !! id = Some (Some p).
Proof.
  intros Hacc Hlast.
  assert (Hcommon : common_ancestor func id p).
  { intros k chain Hk. by apply last_Some_elem_of, (Hlast k). }
  destruct (detect_buffer_access_lca func !! id) as [[p'|]|] eqn:Hd.
  - destruct (detect_deepest _ _ _ Hd) as (Hp' & Hmax & _).
    destruct Hacc as (k & chain & Hk). do 2 f_equal.
    apply (anti_symm prefix).
    + eapply chain_last_deepest; [done|by eapply Hlast|by eapply Hp'].
    + by apply Hmax.
  - exfalso. by eapply detect_no_common_ancestor.
  - exfalso. by eapply detect_not_accessed.
Qed.

Lemma detect_sibling_scopes func id (c : list path) (p l1 l2 : path)
    (rest1 rest2 : list path) :
  l1 ≠ l2 →
  (∃ k, buffer_access_at func k id (c ++ p :: l1 :: rest1)) →
  (∃ k, buffer_access_at func k id (c ++ p :: l2 :: rest2)) →
  (∀ k chain, buffer_access_at func k id chain → (c ++ [p]) `prefix_of` chain) →
  detect_buffer_access_lca func !! id = Some (Some p).
Proof.
  intros Hne [k1 H1] [k2 H2] Hunder.
  rewrite detect_lookup. pose proof (lca_chains_spec func id) as Hspec.
  destruct (ffi_api.lca_chains func !! id) as [r|].
  - destruct Hspec as (_ & Hpre & Hmax). simpl. do 2 f_equal.
    destruct (Hmax _ Hunder) as [t ->].
    destruct (Hpre _ _ H1) as [t1 Ht1]. destruct (Hpre _ _ H2) as [t2 Ht2].
    rewrite (cons_middle p c), !app_assoc, <- !(app_assoc (c ++ [p])) in Ht1.
    rewrite (cons_middle p c), !app_assoc, <- !(app_assoc (c ++ [p])) in Ht2.
    apply app_inv_head in Ht1, Ht2.
    destruct t as [|x t]; [by rewrite app_nil_r, last_snoc|].
    simpl in *. congruence.
  - exfalso. apply Hspec. by exists k1, (c ++ p :: l1 :: rest1).
Qed.



(** * Further properties *)

(** ** The Python layer *)


(** ** Structural equality is an equivalence *)

Section DeepEqualEquivalence.

Lemma deep_equal_load buf idx buf' idx' :
  ffi_api.expr_deep_equal (BufferLoad buf idx) (BufferLoad buf' idx')
  = buffer_same_as buf buf' && forall2b ffi_api.expr_deep_equal idx idx'.
Proof.
  simpl. f_equal. revert idx'.
  induction idx as [|x r IH]; intros [|x' r']; simpl; try done.
  by rewrite IH.
Qed.

Lemma deep_equal_call op args op' args' :
  ffi_api.expr_deep_equal (CallE op args) (CallE op' args')
  = String.eqb op op' && forall2b ffi_api.expr_deep_equal args args'.
Proof.
  simpl. f_equal. revert args'.
  induction args as [|x r IH]; intros [|x' r']; simpl; try done.
  by rewrite IH.
Qed.

Lemma same_as_sym u v : same_as u v = same_as v u.
Proof. apply Pos.eqb_sym. Qed.

Lemma binop_eqb_sym o o' : binop_eqb o o' = binop_eqb o' o.
Proof. by destruct o, o'. Qed.

Lemma binop_eqb_eq o o' : binop_eqb o o' = true → o = o'.
Proof. by destruct o, o'. Qed.

Lemma forall2b_sym {A} (f : A → A → bool) (l l' : list A) :
  Forall (λ x, ∀ y, f x y = f y x) l → forall2b f l l' = forall2b f l' l.
Proof.
  intros Hl. revert l'.
  induction Hl as [|x r Hx _ IH]; intros [|y r']; simpl; try done.
  by rewrite Hx, IH.
Qed.

Lemma forall2b_trans {A} (f : A → A → bool) (l l' l'' : list A) :
  Forall (λ x, ∀ y z, f x y = true → f y z = true → f x z = true) l →
  forall2b f l l' = true → forall2b f l' l'' = true → forall2b f l l'' = true.
Proof.
  intros Hl. revert l' l''.
  induction Hl as [|x r Hx _ IH]; intros [|y r'] [|z r'']; simpl; try done.
  rewrite !andb_true_iff. intros [Hxy Hr] [Hyz Hr'].
  split; [by eapply Hx|by eapply IH].
Qed.

Lemma expr_deep_equal_sym a b :
  ffi_api.expr_deep_equal a b = ffi_api.expr_deep_equal b a.
Proof.
  revert b.
  induction a as [v|n|op a1 a2 IH1 IH2|a IHa|c t f IHc IHt IHf|v x y IHx IHy
                  |buf idx IH|op args IH] using PrimExpr_nested_ind;
    intros [v'|n'|op' b1 b2|b|c' t' f'|v' x' y'|buf' idx'|op' args'];
    try done.
  - apply same_as_sym.
  - apply Z.eqb_sym.
  - simpl. by rewrite IH1, IH2, binop_eqb_sym.
  - simpl. apply IHa.
  - simpl. by rewrite IHc, IHt, IHf.
  - simpl. by rewrite IHx, IHy, same_as_sym.
  - rewrite !deep_equal_load. unfold buffer_same_as.
    by rewrite Pos.eqb_sym, (forall2b_sym _ idx idx').
  - rewrite !deep_equal_call. by rewrite String.eqb_sym, (forall2b_sym _ args args').
Qed.

Lemma expr_deep_equal_trans a b c :
  ffi_api.expr_deep_equal a b = true →
  ffi_api.expr_deep_equal b c = true →
  ffi_api.expr_deep_equal a c = true.
Proof.
  revert b c.
  induction a as [v|n|op a1 a2 IH1 IH2|a IHa|c0 t f IHc IHt IHf|v x y IHx IHy
                  |buf idx IH|op args IH] using PrimExpr_nested_ind;
    intros [v'|n'|op' b1 b2|b|c' t' f'|v' x' y'|buf' idx'|op' args'];
    try done;
    intros [v''|n''|op'' c1 c2|c|c'' t'' f''|v'' x'' y''|buf'' idx''|op'' args''];
    try done.
  - simpl. rewrite !same_as_iff. congruence.
  - simpl. rewrite !Z.eqb_eq. congruence.
  - simpl. rewrite !andb_true_iff.
    intros [[Ho H1] H2] [[Ho' H1'] H2']. split_and!.
    + apply binop_eqb_eq in Ho, Ho'. subst. apply binop_eqb_refl.
    + by eapply IH1.
    + by eapply IH2.
  - simpl. apply IHa.
  - simpl. rewrite !andb_true_iff.
    intros [[H1 H2] H3] [[H1' H2'] H3']. split_and!;
      [by eapply IHc|by eapply IHt|by eapply IHf].
  - simpl. rewrite !andb_true_iff, !same_as_iff.
    intros [[Hv H1] H2] [[Hv' H1'] H2']. split_and!;
      [congruence|by eapply IHx|by eapply IHy].
  - rewrite !deep_equal_load, !andb_true_iff, !buffer_same_as_iff.
    intros [Hb Hl] [Hb' Hl']. split; [congruence|].
    by eapply forall2b_trans.
  - rewrite !deep_equal_call, !andb_true_iff, !String.eqb_eq.
    intros [Hb Hl] [Hb' Hl']. split; [congruence|].
    by eapply forall2b_trans.
Qed.

End DeepEqualEquivalence.

(** X2: [expr_deep_equal] does not depend on the order of its operands, and
    it is transitive: with reflexivity it is an equivalence on
    expressions. *)
Theorem expr_deep_equal_symmetric_transitive :
  (∀ a b, expr_deep_equal a b = expr_deep_equal b a)
  ∧ (∀ a b c,
       expr_deep_equal a b = true → expr_deep_equal b c = true →
       expr_deep_equal a c = true).
Proof.
  split; [apply expr_deep_equal_sym|apply expr_deep_equal_trans].
Qed.

Lemma expr_deep_equal_symmetric_transitive_witness :
  expr_deep_equal (plus_one var_x) (plus_one (mkVar 1 "renamed")) = true.
Proof.
  apply (proj2 expr_deep_equal_symmetric_transitive
           (plus_one var_x) (plus_one (mkVar 1 "other"))
           (plus_one (mkVar 1 "renamed")));
    reflexivity.
Defined.

(** ** Equal expressions cost the same *)

Lemma forall2b_flops (l l' : list PrimExpr) :
  Forall (λ a, ∀ b, ffi_api.expr_deep_equal a b = true →
                    ffi_api.flops_expr a = ffi_api.flops_expr b) l →
  forall2b ffi_api.expr_deep_equal l l' = true →
  ffi_api.sumZ (map ffi_api.flops_expr l)
  = ffi_api.sumZ (map ffi_api.flops_expr l').
Proof.
  intros Hl. revert l'.
  induction Hl as [|x r Hx _ IH]; intros [|y r']; simpl; try done.
  rewrite andb_true_iff. intros [Hxy Hr].
  unfold ffi_api.sumZ in *. simpl. by rewrite (Hx y Hxy), (IH r' Hr).
Qed.

Lemma deep_equal_flops a b :
  ffi_api.expr_deep_equal a b = true →
  ffi_api.flops_expr a = ffi_api.flops_expr b.
Proof.
  revert b.
  induction a as [v|n|op a1 a2 IH1 IH2|a IHa|c t f IHc IHt IHf|v x y IHx IHy
                  |buf idx IH|op args IH] using PrimExpr_nested_ind;
    intros [v'|n'|op' b1 b2|b|c' t' f'|v' x' y'|buf' idx'|op' args'];
    try done.
  - simpl. rewrite !andb_true_iff. intros [[_ H1] H2].
    by rewrite (IH1 _ H1), (IH2 _ H2).
  - simpl. intros Ha. by rewrite (IHa _ Ha).
  - simpl. rewrite !andb_true_iff. intros [[H1 H2] H3].
    by rewrite (IHc _ H1), (IHt _ H2), (IHf _ H3).
  - simpl. rewrite !andb_true_iff. intros [[_ H1] H2].
    by rewrite (IHx _ H1), (IHy _ H2).
  - rewrite deep_equal_load, andb_true_iff. intros [_ Hl].
    simpl. by apply forall2b_flops.
  - rewrite deep_equal_call, andb_true_iff. intros [_ Hl].
    simpl. by apply forall2b_flops.
Qed.

(** X3: two expressions that [expr_deep_equal] accepts have the same number
    of operator nodes, so evaluating either gets the same FLOP estimate. *)
Theorem deep_equal_expressions_cost_the_same
    (cfg : EngineConfig) (a b : PrimExpr) :
  expr_deep_equal a b = true →
  ffi_api.flops_expr a = ffi_api.flops_expr b
  ∧ estimate_tir_flops cfg (inl (Evaluate a))
    = estimate_tir_flops cfg (inl (Evaluate b)).
Proof.
  intros Hab. pose proof (deep_equal_flops a b Hab) as Hflops.
  split; [done|].
  unfold estimate_tir_flops, ffi_api.EstimateTIRFlops. simpl. by rewrite Hflops.
Qed.

Lemma deep_equal_expressions_cost_the_same_witness :
  ffi_api.flops_expr (plus_one var_x)
  = ffi_api.flops_expr (plus_one (mkVar 1 "renamed"))
  ∧ estimate_tir_flops plain_config (inl (Evaluate (plus_one var_x)))
    = estimate_tir_flops plain_config
        (inl (Evaluate (plus_one (mkVar 1 "renamed")))).
Proof.
  apply (deep_equal_expressions_cost_the_same plain_config
           (plus_one var_x) (plus_one (mkVar 1 "renamed"))).
  reflexivity.
Defined.

(** ** Undefined variables and the caller's definitions *)

Section UndefinedVarsClosure.

Variable node : Node.

Lemma undefined_use_more_defs defs defs' acts k v :
  (∀ x, x ∈ var_id <$> defs → x ∈ var_id <$> defs') →
  undefined_use defs' acts k v → undefined_use defs acts k v.
Proof.
  intros Hsub [Hk [Hnd Hnb]]. split; [done|]. split; [|done].
  intros Hin. by apply Hnd, Hsub.
Qed.

Lemma UndefinedVars_sound defs v :
  v ∈ ffi_api.UndefinedVars node defs →
  ∃ k, undefined_use defs (node_actions node) k v.
Proof.
  destruct (use_def_inv_walk defs (walk_node node)) as (_ & Hsound & _).
  apply Hsound.
Qed.

Lemma UndefinedVars_complete defs k v :
  undefined_use defs (node_actions node) k v →
  var_id v ∈ var_id <$> ffi_api.UndefinedVars node defs.
Proof.
  destruct (use_def_inv_walk defs (walk_node node)) as (_ & _ & Hcomplete & _).
  apply Hcomplete.
Qed.

End UndefinedVarsClosure.

(** X4: [undefined_vars] never reports a variable the caller declared as
    defined, and once the reported variables are added to the definitions a
    second call on the same node reports nothing. *)
Theorem undefined_vars_closed_by_its_result
    (node : Node) (defs : option (list Var)) :
  Forall (λ v, var_id v ∉ var_id <$> default [] defs)
    (undefined_vars ffi_api.UndefinedVars node defs)
  ∧ undefined_vars ffi_api.UndefinedVars node
      (Some (default [] defs
             ++ undefined_vars ffi_api.UndefinedVars node defs))
    = [].
Proof.
  unfold undefined_vars. rewrite !or_empty_default. simpl.
  set (known := default [] defs). split.
  - apply Forall_forall. intros v Hv.
    apply UndefinedVars_sound in Hv as (k & _ & Hnd & _). exact Hnd.
  - destruct (ffi_api.UndefinedVars node
                (known ++ ffi_api.UndefinedVars node known))
      as [|v rest] eqn:Hagain; [done|].
    exfalso.
    assert (Hv : v ∈ ffi_api.UndefinedVars node
                       (known ++ ffi_api.UndefinedVars node known))
      by (rewrite Hagain; by left).
    apply UndefinedVars_sound in Hv as (k & Hk).
    pose proof Hk as (_ & Hnd & _). apply Hnd.
    rewrite fmap_app. apply elem_of_app. right.
    apply (UndefinedVars_complete node known k).
    eapply undefined_use_more_defs; [|exact Hk].
    intros x Hx. rewrite fmap_app. apply elem_of_app. by left.
Qed.

(** X5: declaring more variables as defined can only shrink the report:
    every variable reported under the larger definitions is also reported,
    by identity, under the smaller ones. *)
Theorem undefined_vars_antitone_in_defs
    (node : Node) (defs defs' : list Var) :
  (∀ x, x ∈ var_id <$> defs → x ∈ var_id <$> defs') →
  Forall (λ v, var_id v
               ∈ var_id <$> undefined_vars ffi_api.UndefinedVars node (Some defs))
    (undefined_vars ffi_api.UndefinedVars node (Some defs')).
Proof.
  intros Hsub. unfold undefined_vars. rewrite !or_empty_default. simpl.
  apply Forall_forall. intros v Hv.
  apply UndefinedVars_sound in Hv as (k & Hk).
  apply (UndefinedVars_complete node defs k).
  by eapply undefined_use_more_defs.
Qed.

Lemma undefined_vars_antitone_in_defs_witness :
  Forall (λ v, var_id v
               ∈ var_id <$> undefined_vars ffi_api.UndefinedVars
                              (StmtNode uses_y_x_y) (Some []))
    (undefined_vars ffi_api.UndefinedVars (StmtNode uses_y_x_y)
       (Some [var_x])).
Proof.
  apply (undefined_vars_antitone_in_defs (StmtNode uses_y_x_y) [] [var_x]).
  intros x Hx. vm_compute in Hx. by apply elem_of_nil in Hx.
Defined.

(** ** GPU limits can be relaxed *)

Lemma verify_gpu_code_false_iff cfg func (constraints : gmap string Z) :
  verify_gpu_code cfg func constraints = false
  ↔ ∃ scope name used limit,
      scope ∈ ffi_api.kernel_scopes (func_body func)
      ∧ (name, used) ∈ ffi_api.resource_usage (other_counters cfg) scope
      ∧ constraints !! name = Some limit
      ∧ (limit < used)%Z.
Proof.
  unfold verify_gpu_code, ffi_api.verify_gpu_code.
  rewrite forallb_false. split.
  - intros (scope & Hscope & Hbad).
    apply forallb_false in Hbad as ([name used] & Hin & Hlim).
    apply within_limit_false in Hlim as (limit & Hlimit & Hlt).
    by exists scope, name, used, limit.
  - intros (scope & name & used & limit & Hscope & Hin & Hlimit & Hlt).
    exists scope. split; [done|]. apply forallb_false.
    exists (name, used). split; [done|].
    apply within_limit_false. by exists limit.
Qed.

(** X6: a function that passes [verify_gpu_code] under some constraints
    still passes when constraints are dropped or limits are raised; and a
    function without a kernel launch scope passes under any constraints. *)
Theorem verify_gpu_code_survives_relaxing
    (cfg : EngineConfig) (func : PrimFunc) (tight loose : gmap string Z) :
  ((∀ name limit,
      loose !! name = Some limit →
      ∃ limit', tight !! name = Some limit' ∧ (limit' ≤ limit)%Z) →
   verify_gpu_code cfg func tight = true →
   verify_gpu_code cfg func loose = true)
  ∧ (ffi_api.kernel_scopes (func_body func) = [] →
     verify_gpu_code cfg func tight = true).
Proof.
  split.
  - intros Hrelax Htight.
    destruct (verify_gpu_code cfg func loose) eqn:Hloose; [done|].
    apply verify_gpu_code_false_iff in Hloose
      as (scope & name & used & limit & Hscope & Hin & Hlimit & Hlt).
    destruct (Hrelax _ _ Hlimit) as (limit' & Hlimit' & Hle).
    assert (verify_gpu_code cfg func tight = false) as Hfalse.
    { apply verify_gpu_code_false_iff.
      exists scope, name, used, limit'. split_and!; [done|done|done|lia]. }
    congruence.
  - intros Hnone. unfold verify_gpu_code, ffi_api.verify_gpu_code.
    by rewrite Hnone.
Qed.

Lemma verify_gpu_code_survives_relaxing_witness :
  verify_gpu_code plain_config kernel_1024
    {[ "max_threads_per_block" := 2048%Z ]} = true.
Proof.
  apply (proj1 (verify_gpu_code_survives_relaxing plain_config kernel_1024
                  {[ "max_threads_per_block" := 1024%Z;
                     "max_shared_memory_per_block" := 1024%Z ]}
                  {[ "max_threads_per_block" := 2048%Z ]})).
  - intros name limit Hloose.
    apply lookup_singleton_Some in Hloose as [<- <-].
    exists 1024%Z. split; [reflexivity|lia].
  - vm_compute. reflexivity.
Defined.

(** ** The read/write variant extends the access regions *)

Section ReadWriteExtends.

Import ffi_api.

Lemma count_as_nil l : count_as l [] = l.
Proof. reflexivity. Qed.

Lemma count_as_buffers_prefix l opaques :
  (region_buffer <$> l) `prefix_of` (region_buffer <$> count_as l opaques).
Proof.
  unfold count_as. revert l.
  induction opaques as [|o os IH]; intros l; [done|].
  cbn [foldl]. etransitivity; [|apply IH].
  rewrite update_region_buffers. by apply prefix_app_r.
Qed.

Lemma appears_in_self r l :
  r ∈ l → appears_in (region_id r) (region r) l.
Proof.
  intros Hr. exists r. split_and!; [done|done|apply region_covers_refl].
Qed.

End ReadWriteExtends.





(** ** The anchor block when the maximum is unique *)

(** X9: when one init-bearing block is the only one whose estimate reaches
    the maximum, [find_anchor_block] returns it whichever way ties are
    broken. *)
Theorem find_anchor_block_unique_maximum
    (cfg : EngineConfig) (m : IRModule) (best : Stmt) :
  init_block_of m best →
  (∀ b, init_block_of m b →
        (ffi_api.flops_stmt (symbolic_trip_count cfg) best
         ≤ ffi_api.flops_stmt (symbolic_trip_count cfg) b)%Z →
        b = best) →
  find_anchor_block cfg m = Some best.
Proof.
  intros Hbest Hunique. unfold find_anchor_block, ffi_api.find_anchor_block.
  destruct (foldl _ None (ffi_api.module_init_blocks m)) as [b|] eqn:Hfold.
  - apply pick_anchor_fold in Hfold as ([|Hin] & _ & Hmax); [done|].
    f_equal. apply Hunique; [by apply module_init_blocks_spec|].
    by apply Hmax, module_init_blocks_spec.
  - apply pick_anchor_none in Hfold.
    apply module_init_blocks_spec in Hbest. rewrite Hfold in Hbest.
    by apply elem_of_nil in Hbest.
Qed.

Lemma find_anchor_block_unique_maximum_witness :
  find_anchor_block plain_config two_reductions
  = Some (reduction_block "large" 100).
Proof.
  apply (find_anchor_block_unique_maximum plain_config two_reductions
           (reduction_block "large" 100)).
  - apply module_init_blocks_spec.
    assert (Hblocks : ffi_api.module_init_blocks two_reductions
                      = [reduction_block "small" 10;
                         reduction_block "large" 100])
      by (vm_compute; reflexivity).
    rewrite Hblocks. right. left.
  - intros b Hb Hle. apply module_init_blocks_spec in Hb.
    assert (Hblocks : ffi_api.module_init_blocks two_reductions
                      = [reduction_block "small" 10;
                         reduction_block "large" 100])
      by (vm_compute; reflexivity).
    rewrite Hblocks in Hb.
    apply elem_of_cons in Hb as [->|Hb].
    + exfalso. revert Hle. vm_compute. intros H. apply H. reflexivity.
    + apply list_elem_of_singleton in Hb. exact Hb.
Defined.

(** ** The estimate of a module adds up over its functions *)

Lemma sumZ_permutation (l k : list Z) :
  l ≡ₚ k → ffi_api.sumZ l = ffi_api.sumZ k.
Proof.
  unfold ffi_api.sumZ.
  induction 1 as [|x l k _ IH|x y l|l k j _ IH1 _ IH2]; simpl.
  - done.
  - by rewrite IH.
  - lia.
  - by rewrite IH1.
Qed.

Lemma module_funcs_insert_func (fs : gmap string GlobalDef) name f :
  fs !! name = None →
  ffi_api.module_funcs (mkIRModule (<[name := TirFunc f]> fs))
  ≡ₚ f :: ffi_api.module_funcs (mkIRModule fs).
Proof.
  intros Hfresh. unfold ffi_api.module_funcs. simpl.
  by rewrite (map_to_list_insert fs name (TirFunc f) Hfresh).
Qed.

Lemma module_funcs_insert_other (fs : gmap string GlobalDef) name d :
  fs !! name = None →
  ffi_api.module_funcs (mkIRModule (<[name := OtherGlobal d]> fs))
  ≡ₚ ffi_api.module_funcs (mkIRModule fs).
Proof.
  intros Hfresh. unfold ffi_api.module_funcs. simpl.
  by rewrite (map_to_list_insert fs name (OtherGlobal d) Hfresh).
Qed.

(** X10: the estimate of a module is the sum over its functions whatever
    their names: adding a function under a fresh name adds the cost of its
    body, adding another kind of global changes nothing, and the empty
    module costs 0.0. *)
Theorem estimate_tir_flops_module_adds_up
    (cfg : EngineConfig) (fs : gmap string GlobalDef) (name : string) :
  fs !! name = None →
  (∀ f,
     estimate_tir_flops cfg (inr (mkIRModule (<[name := TirFunc f]> fs)))
     = Z_to_float
         (ffi_api.flop_count (symbolic_trip_count cfg) (inr (mkIRModule fs))
          + ffi_api.flop_count (symbolic_trip_count cfg) (inl (func_body f))))
  ∧ (∀ d,
       estimate_tir_flops cfg (inr (mkIRModule (<[name := OtherGlobal d]> fs)))
       = estimate_tir_flops cfg (inr (mkIRModule fs)))
  ∧ estimate_tir_flops cfg (inr (mkIRModule ∅)) = 0%float.
Proof.
  intros Hfresh.
  unfold estimate_tir_flops, ffi_api.EstimateTIRFlops, ffi_api.flop_count.
  split_and!.
  - intros f. f_equal.
    rewrite (sumZ_permutation _ _
               (fmap_Permutation _ _ _ (module_funcs_insert_func fs name f Hfresh))).
    unfold ffi_api.sumZ. rewrite fmap_cons. cbn [foldr].
    change (map ?g ?l) with (g <$> l). lia.
  - intros d. f_equal.
    apply sumZ_permutation, fmap_Permutation.
    by apply module_funcs_insert_other.
  - reflexivity.
Qed.

Lemma estimate_tir_flops_module_adds_up_witness :
  estimate_tir_flops plain_config
    (inr (mkIRModule (<["main" := TirFunc (mkPrimFunc [] ∅ loop_add_8)]> ∅)))
  = Z_to_float
      (ffi_api.flop_count (symbolic_trip_count plain_config)
         (inr (mkIRModule ∅))
       + ffi_api.flop_count (symbolic_trip_count plain_config)
           (inl loop_add_8)).
Proof.
  apply (proj1 (estimate_tir_flops_module_adds_up plain_config ∅ "main"
                  (lookup_empty "main"))
           (mkPrimFunc [] ∅ loop_add_8)).
Defined.

(** ** The estimate is not negative *)

Section FlopsNonNegative.

Variable stc : PrimExpr → Z.
Hypothesis stc_nonneg : ∀ e, (0 ≤ stc e)%Z.

Lemma flops_expr_nonneg e : (0 ≤ ffi_api.flops_expr e)%Z.
Proof. rewrite flops_expr_counts_operators. lia. Qed.

Lemma sumZ_nonneg (l : list Z) : Forall (λ z, 0 ≤ z)%Z l → (0 ≤ ffi_api.sumZ l)%Z.
Proof.
  unfold ffi_api.sumZ. induction 1 as [|z l Hz _ IH]; simpl; lia.
Qed.

Lemma sumZ_flops_expr_nonneg (l : list PrimExpr) :
  (0 ≤ ffi_api.sumZ (map ffi_api.flops_expr l))%Z.
Proof.
  apply sumZ_nonneg. change (map ?g ?k) with (g <$> k).
  apply Forall_fmap, Forall_forall. intros e _. apply flops_expr_nonneg.
Qed.

Lemma Forall_flat_map {A B} (P : B → Prop) (f : A → list B) (l : list A) x :
  Forall P (flat_map f l) → x ∈ l → Forall P (f x).
Proof.
  rewrite !Forall_forall. intros Hall Hx y Hy. apply Hall.
  apply elem_of_flat_map. by exists x.
Qed.

Lemma flops_stmt_nonneg s :
  Forall (λ n, 0 ≤ n)%Z (constant_extents s) →
  (0 ≤ ffi_api.flops_stmt stc s)%Z.
Proof.
  induction s as [ss IH|c t e IHt IHe|v lo ext k body IH|buf body IH
                  |buf x idx|v x body IH|e|n ivs i body IHi IHb]
    using Stmt_nested_ind; simpl; intros Hext.
  - apply sumZ_nonneg. change (map ?g ?k) with (g <$> k).
    apply Forall_fmap, Forall_forall. intros x Hx. simpl.
    rewrite Forall_forall in IH. apply IH; [done|].
    by eapply Forall_flat_map.
  - apply Forall_app in Hext as [Ht He].
    pose proof (flops_expr_nonneg c). specialize (IHt Ht).
    destruct e as [e'|]; [specialize (IHe He)|]; lia.
  - apply Forall_app in Hext as [Hn Hb]. specialize (IH Hb).
    apply Z.mul_nonneg_nonneg; [|done].
    destruct ext; simpl; try apply stc_nonneg. by apply Forall_inv in Hn.
  - by apply IH.
  - pose proof (flops_expr_nonneg x). pose proof (sumZ_flops_expr_nonneg idx).
    lia.
  - pose proof (flops_expr_nonneg x). specialize (IH Hext). lia.
  - apply flops_expr_nonneg.
  - apply Forall_app in Hext as [Hi Hb]. specialize (IHb Hb).
    destruct i as [i'|]; [specialize (IHi Hi)|]; lia.
Qed.

End FlopsNonNegative.

(** X11: when the extents of its loops are not negative (the constant ones,
    and whatever stands in for a symbolic one), the operator count behind
    the estimate of a statement is not negative; a negative extent is
    multiplied in as it is, so one addition under an extent of -2 counts
    as -2. *)
Theorem flop_count_nonnegative (cfg : EngineConfig) (s : Stmt) :
  ((∀ e, (0 ≤ symbolic_trip_count cfg e)%Z) →
   Forall (λ n, 0 ≤ n)%Z (constant_extents s) →
   (0 ≤ ffi_api.flop_count (symbolic_trip_count cfg) (inl s))%Z)
  ∧ ffi_api.flop_count (symbolic_trip_count cfg)
      (inl (For var_i (IntImm 0) (IntImm (-2)) Serial
              (Evaluate (plus_one var_i))))
    = (-2)%Z.
Proof.
  split; [|reflexivity]. intros Hstc Hext. by apply flops_stmt_nonneg.
Qed.

Lemma flop_count_nonnegative_witness :
  (0 ≤ ffi_api.flop_count (symbolic_trip_count plain_config)
         (inl loops_mul_4_4))%Z.
Proof.
  apply (proj1 (flop_count_nonnegative plain_config loops_mul_4_4)).
  - intros e. simpl. lia.
  - vm_compute. repeat constructor; discriminate.
Defined.

(** ** What a walk meets does not depend on where it starts *)

Section WalkActions.

Lemma walk_exprs_actions chain chain' (l : list PrimExpr) :
  Forall (λ e, action <$> walk_expr chain e = action <$> walk_expr chain' e) l →
  action <$> flat_map (walk_expr chain) l
  = action <$> flat_map (walk_expr chain') l.
Proof.
  induction 1 as [|e r He _ IH]; [done|].
  simpl. by rewrite !fmap_app, He, IH.
Qed.

Lemma walk_expr_actions chain chain' e :
  action <$> walk_expr chain e = action <$> walk_expr chain' e.
Proof.
  induction e as [v|n|op a b IHa IHb|a IHa|c t f IHc IHt IHf|v x b IHx IHb
                  |buf idx IH|op args IH] using PrimExpr_nested_ind; simpl;
    rewrite ?fmap_app, ?fmap_cons, ?fmap_app; simpl; try congruence.
  - f_equal. by apply walk_exprs_actions.
  - by apply walk_exprs_actions.
Qed.

Lemma walk_expr_list_actions chain chain' (l : list PrimExpr) :
  action <$> flat_map (walk_expr chain) l
  = action <$> flat_map (walk_expr chain') l.
Proof.
  apply walk_exprs_actions, Forall_forall. intros e _.
  apply walk_expr_actions.
Qed.

Lemma walk_iter_vars_actions chain chain' (ivs : list IterVar) :
  action <$> flat_map (walk_iter_var chain) ivs
  = action <$> flat_map (walk_iter_var chain') ivs.
Proof.
  induction ivs as [|iv r IH]; [done|].
  simpl. rewrite !fmap_app, IH. f_equal. unfold walk_iter_var.
  rewrite !fmap_app. simpl.
  by rewrite (walk_expr_actions chain chain' (dom_min iv)),
    (walk_expr_actions chain chain' (dom_extent iv)).
Qed.

Lemma walk_children_actions (f g : nat → Stmt → list Visit) (ss : list Stmt) :
  Forall (λ x, ∀ i j, action <$> f i x = action <$> g j x) ss →
  ∀ i j, action <$> flat_mapi f i ss = action <$> flat_mapi g j ss.
Proof.
  induction 1 as [|x r Hx _ IH]; intros i j; [done|].
  simpl. by rewrite !fmap_app, (Hx i j), (IH (S i) (S j)).
Qed.

Lemma walk_stmt_actions s :
  ∀ here chain here' chain',
    action <$> walk_stmt here chain s = action <$> walk_stmt here' chain' s.
Proof.
  induction s as [ss IH|c t e IHt IHe|v lo ext k body IH|buf body IH
                  |buf x idx|v x body IH|e|n ivs i body IHi IHb]
    using Stmt_nested_ind; intros here chain here' chain';
    cbn [walk_stmt].
  - apply walk_children_actions.
    eapply Forall_impl; [exact IH|]. intros x Hx i j. apply Hx.
  - rewrite !fmap_app, (walk_expr_actions chain chain' c),
      (IHt (here ++ [0]) chain (here' ++ [0]) chain').
    do 2 f_equal. destruct e as [e'|]; [apply IHe|done].
  - rewrite !fmap_app, !fmap_cons, (walk_expr_actions chain chain' lo),
      (walk_expr_actions chain chain' ext). simpl. do 3 f_equal. apply IH.
  - apply IH.
  - rewrite !fmap_cons, !fmap_app, (walk_expr_actions chain chain' x),
      (walk_expr_list_actions chain chain' idx). done.
  - rewrite !fmap_app, !fmap_cons, (walk_expr_actions chain chain' x).
    simpl. do 2 f_equal. apply IH.
  - apply walk_expr_actions.
  - rewrite !fmap_app, (walk_iter_vars_actions chain chain' ivs).
    f_equal. f_equal; [destruct i as [i'|]; [apply IHi|done]|apply IHb].
Qed.

Lemma binding_sites_of_actions (vs vs' : list Visit) :
  action <$> vs = action <$> vs' →
  ffi_api.binding_sites vs = ffi_api.binding_sites vs'.
Proof.
  revert vs'. induction vs as [|v vs IH]; intros [|v' vs']; try done.
  rewrite !fmap_cons. intros [= Hv Hvs]. rewrite !binding_sites_cons, Hv.
  by rewrite (IH vs' Hvs).
Qed.

Lemma binding_sites_app (vs vs' : list Visit) :
  ffi_api.binding_sites (vs ++ vs')
  = ffi_api.binding_sites vs ++ ffi_api.binding_sites vs'.
Proof. apply omap_app. Qed.

Lemma binding_sites_child (f : nat → Stmt → list Visit) (ss : list Stmt) i k x :
  ss !! i = Some x →
  ffi_api.binding_sites (f (k + i) x)
    `sublist_of` ffi_api.binding_sites (flat_mapi f k ss).
Proof.
  revert i k. induction ss as [|y ss IH]; intros [|i] k Hi; try done.
  - injection Hi as ->. simpl. rewrite Nat.add_0_r, binding_sites_app.
    by apply sublist_inserts_r.
  - simpl in *. rewrite binding_sites_app. apply sublist_inserts_l.
    replace (k + S i) with (S k + i) by lia. by apply IH.
Qed.

Lemma binding_sites_substatement (p : path) (s s' : Stmt) :
  stmt_at p s = Some s' →
  ffi_api.binding_sites (walk_stmt [] [] s')
    `sublist_of` ffi_api.binding_sites (walk_stmt [] [] s).
Proof.
  assert (Hany : ∀ x here chain,
            ffi_api.binding_sites (walk_stmt here chain x)
            = ffi_api.binding_sites (walk_stmt [] [] x)).
  { intros x here chain. apply binding_sites_of_actions, walk_stmt_actions. }
  revert s. induction p as [|i p IH]; intros s Hp.
  - injection Hp as ->. done.
  - destruct s as [ss|c t e|v lo ext k b|buf b|buf x idx|v x b|e|n ivs init b];
      simpl in Hp; try done.
    + destruct (ss !! i) as [x|] eqn:Hi; [|done].
      etransitivity; [by apply IH|]. simpl.
      rewrite <- (Hany x ([] ++ [0 + i]) []).
      by apply (binding_sites_child (λ i x, walk_stmt ([] ++ [i]) [] x)).
    + destruct i as [|[|i]]; [|destruct e as [e'|]; [|done]|done].
      * etransitivity; [by apply IH|]. simpl.
        rewrite !binding_sites_app, (Hany t [0] []).
        apply sublist_inserts_l, sublist_inserts_r. done.
      * etransitivity; [by apply IH|]. simpl.
        rewrite !binding_sites_app, (Hany e' [1] []).
        apply sublist_inserts_l, sublist_inserts_l. done.
    + destruct i; [|done]. etransitivity; [by apply IH|]. simpl.
      rewrite !binding_sites_app, binding_sites_cons. simpl.
      rewrite (Hany b [0] [LoopScope [] v lo ext k]).
      apply sublist_inserts_l, sublist_inserts_l, sublist_cons. done.
    + destruct i; [|done]. etransitivity; [by apply IH|]. simpl.
      by rewrite (Hany b [0] []).
    + destruct i; [|done]. etransitivity; [by apply IH|]. simpl.
      rewrite !binding_sites_app, binding_sites_cons. simpl.
      rewrite (Hany b [0] []).
      apply sublist_inserts_l, sublist_cons. done.
    + destruct i as [|[|i]]; [destruct init as [i'|]; [|done]| |done].
      * etransitivity; [by apply IH|]. simpl.
        rewrite !binding_sites_app, (Hany i' [0] [BlockScope [] n ivs]).
        apply sublist_inserts_l, sublist_inserts_r. done.
      * etransitivity; [by apply IH|]. simpl.
        rewrite !binding_sites_app, (Hany b [1] [BlockScope [] n ivs]).
        apply sublist_inserts_l, sublist_inserts_l. done.
Qed.

End WalkActions.

Lemma verify_ssa_NoDup (func : PrimFunc) :
  ffi_api.verify_ssa func = true
  ↔ NoDup (var_id <$> function_binding_sites func).
Proof.
  unfold ffi_api.verify_ssa, function_binding_sites. rewrite ssa_fold_ok.
  split; [by intros (_ & Hnd & _)|]. intros Hnd. split_and!; [done|done|].
  intros x _. apply not_elem_of_empty.
Qed.

(** X12: SSA form is inherited: when a function passes [verify_ssa], so
    does the function obtained by taking any of the statements inside its
    body as the body. *)
Theorem verify_ssa_inherited_by_substatements
    (func : PrimFunc) (p : path) (s : Stmt) :
  stmt_at p (func_body func) = Some s →
  verify_ssa func = true →
  verify_ssa (with_body func s) = true.
Proof.
  unfold verify_ssa. rewrite !verify_ssa_NoDup. intros Hp Hnd.
  eapply sublist_NoDup; [exact Hnd|].
  apply fmap_sublist. unfold function_binding_sites. simpl.
  by eapply binding_sites_substatement.
Qed.

Lemma verify_ssa_inherited_by_substatements_witness :
  verify_ssa
    (with_body (sibling_loops var_i var_i')
       (For var_i' (IntImm 0) (IntImm 8) Serial
          (BufferStore buf_B (IntImm 0) [VarE var_i'])))
  = true.
Proof.
  apply (verify_ssa_inherited_by_substatements
           (sibling_loops var_i var_i') [1]).
  - reflexivity.
  - vm_compute. reflexivity.
Defined.

(** ** The reported ranges contain the indices that are accessed *)

Section IntervalSoundness.

Import ffi_api.

Lemma mul_scaled_between (c y l h : Z) :
  (l ≤ y ≤ h)%Z →
  (c * l ≤ c * y ≤ c * h ∨ c * h ≤ c * y ≤ c * l)%Z.
Proof.
  intros [Hl Hh]. destruct (Z.le_gt_cases 0 c) as [Hc|Hc].
  - left. split; by apply Z.mul_le_mono_nonneg_l.
  - right. split; apply Z.mul_le_mono_nonpos_l; lia.
Qed.

Lemma mul_between (x y la ha lb hb : Z) :
  (la ≤ x ≤ ha)%Z → (lb ≤ y ≤ hb)%Z →
  (Z.min (Z.min (la * lb) (la * hb)) (Z.min (ha * lb) (ha * hb)) ≤ x * y
   ≤ Z.max (Z.max (la * lb) (la * hb)) (Z.max (ha * lb) (ha * hb)))%Z.
Proof.
  intros Hx Hy.
  pose proof (mul_scaled_between x y lb hb Hy) as Hmid.
  pose proof (mul_scaled_between lb x la ha Hx) as Hlo.
  pose proof (mul_scaled_between hb x la ha Hx) as Hhi.
  rewrite !(Z.mul_comm lb) in Hlo. rewrite !(Z.mul_comm hb) in Hhi.
  lia.
Qed.

Lemma int_set_sound env dom e l h :
  within_domains env dom →
  int_set dom e = Some (l, h) →
  ∃ z, eval_index env e = Some z ∧ (l ≤ z ≤ h)%Z.
Proof.
  intros Henv. revert l h.
  induction e as [v|n|op a b IHa IHb|a IHa|c t f IHc IHt IHf|v x b IHx IHb
                  |buf idx IH|op args IH] using PrimExpr_nested_ind;
    intros l h; simpl; try done.
  - apply Henv.
  - intros [= <- <-]. exists n. split; [done|lia].
  - destruct (int_set dom a) as [[la ha]|]; [|done].
    destruct (int_set dom b) as [[lb hb]|]; [|done].
    destruct (IHa la ha eq_refl) as (x & -> & Hx).
    destruct (IHb lb hb eq_refl) as (y & -> & Hy).
    destruct op; try done; intros [= <- <-]; eexists; (split; [done|]);
      try lia.
    by apply mul_between.
Qed.

Lemma access_ranges_lookup dom idx shp d e l h :
  idx !! d = Some e → int_set dom e = Some (l, h) →
  access_ranges dom idx shp !! d = Some (mkRange l (h - l + 1)).
Proof.
  revert d shp. induction idx as [|e' idx IH]; intros [|d] shp Hd He;
    try done; simpl in *.
  - injection Hd as ->. by rewrite He.
  - by apply IH.
Qed.

Lemma region_covers_lookup big small d s :
  region_covers big small → small !! d = Some s →
  ∃ b, big !! d = Some b ∧ range_covers b s.
Proof.
  revert big d. induction small as [|s' small IH]; intros [|b big] [|d] Hc Hd;
    try done; simpl in *; destruct Hc as [Hb Hc].
  - injection Hd as ->. by exists b.
  - by apply IH.
Qed.

Lemma in_range_covers z big small :
  range_covers big small → in_range z small → in_range z big.
Proof. unfold range_covers, in_range. lia. Qed.

End IntervalSoundness.


